(** * hidg: the USB HID boot-keyboard report engine of [hidg.go]

    A shallow embedding of the translation tables, of [updateReport] (the
    rollover state machine), of [eventWriter] (the worker loop) and of the key
    synthesis done in [main], followed by the properties of the
    specification that concern them.

    Conventions.
    - A Go [byte] is a [Z] in [0, 255]; [uint16] codes and types are [N];
      [int32] values, runes and the Go [int] counter [keys] are [Z].  No
      arithmetic of the program can leave its range on the paths that return
      (the counter is only touched after the slice [report[2:2+keys]] has
      been taken, which forces [0 <= keys <= 6]).
    - The array [report [8]byte] is a [list Z]; indexing, storing and slicing
      are bounds-checked and end in [Panic], as the Go runtime does.
    - Output on stdout and the operations on the device file are recorded, in
      program order, in one trace of [io] items. *)

From Stdlib Require Import ZArith NArith Lia Ascii String.
From stdpp Require Import base decidable option list gmap strings pretty.

Local Open Scope Z_scope.

(** ** Constants of the imported packages *)

(** Event types and key codes of [github.com/maugsburger/evdev]; they are the
    numbers of [linux/input-event-codes.h]. *)
Module evdev.
Definition EvKeys : N := 1%N.

Definition KeyEscape : N := 1%N.
Definition Key1 : N := 2%N.
Definition Key2 : N := 3%N.
Definition Key3 : N := 4%N.
Definition Key4 : N := 5%N.
Definition Key5 : N := 6%N.
Definition Key6 : N := 7%N.
Definition Key7 : N := 8%N.
Definition Key8 : N := 9%N.
Definition Key9 : N := 10%N.
Definition Key0 : N := 11%N.
Definition KeyMinus : N := 12%N.
Definition KeyEqual : N := 13%N.
Definition KeyBackSpace : N := 14%N.
Definition KeyTab : N := 15%N.
Definition KeyQ : N := 16%N.
Definition KeyW : N := 17%N.
Definition KeyE : N := 18%N.
Definition KeyR : N := 19%N.
Definition KeyT : N := 20%N.
Definition KeyY : N := 21%N.
Definition KeyU : N := 22%N.
Definition KeyI : N := 23%N.
Definition KeyO : N := 24%N.
Definition KeyP : N := 25%N.
Definition KeyLeftBrace : N := 26%N.
Definition KeyRightBrace : N := 27%N.
Definition KeyEnter : N := 28%N.
Definition KeyLeftCtrl : N := 29%N.
Definition KeyA : N := 30%N.
Definition KeyS : N := 31%N.
Definition KeyD : N := 32%N.
Definition KeyF : N := 33%N.
Definition KeyG : N := 34%N.
Definition KeyH : N := 35%N.
Definition KeyJ : N := 36%N.
Definition KeyK : N := 37%N.
Definition KeyL : N := 38%N.
Definition KeySemiColon : N := 39%N.
Definition KeyApostrophe : N := 40%N.
Definition KeyLeftShift : N := 42%N.
Definition KeyBackSlash : N := 43%N.
Definition KeyZ : N := 44%N.
Definition KeyX : N := 45%N.
Definition KeyC : N := 46%N.
Definition KeyV : N := 47%N.
Definition KeyB : N := 48%N.
Definition KeyN : N := 49%N.
Definition KeyM : N := 50%N.
Definition KeyComma : N := 51%N.
Definition KeyDot : N := 52%N.
Definition KeySlash : N := 53%N.
Definition KeySpace : N := 57%N.
Definition KeyUp : N := 103%N.
Definition KeyLeft : N := 105%N.
Definition KeyRight : N := 106%N.
Definition KeyDown : N := 108%N.
End evdev.

(** Key numbers of [github.com/gdamore/tcell], already converted to runes:
    the control characters are their ASCII values and the named keys follow
    [KeyRune = 256]. *)
Module tcell.
Definition KeyCtrlA : Z := 1.
Definition KeyBackspace : Z := 8.
Definition KeyTAB : Z := 9.
Definition KeyEnter : Z := 13.
Definition KeyEsc : Z := 27.
Definition KeyBackspace2 : Z := 127.
Definition KeyUp : Z := 257.
Definition KeyDown : Z := 258.
Definition KeyRight : Z := 259.
Definition KeyLeft : Z := 260.
End tcell.

(** ** Translation tables *)

(** [var mapping []byte]: event code to USB usage ID, 194 entries. *)
Definition mapping : list Z :=
  [3; 41; 30; 31; 32; 33; 34; 35; 36; 37; 38;
   39; 45; 46; 42; 43; 20; 26; 8; 21; 23; 28; 24; 12; 18; 19;
   47; 48; 40; 224; 4; 22; 7; 9; 10; 11; 13; 14; 15; 51; 52;
   53; 225; 50; 29; 27; 6; 25; 5; 17; 16; 54; 55; 56; 229; 85;
   226; 44; 57; 58; 59; 60; 61; 62; 63; 64; 65; 66; 67; 83;
   71; 95; 96; 97; 86; 92; 93; 94; 87; 89; 90; 91; 98; 99; 0;
   148; 100; 68; 69; 135; 146; 147; 138; 136; 139; 140; 88; 228;
   84; 70; 230; 0; 74; 82; 75; 80; 79; 77; 81; 78; 73; 76; 0;
   239; 238; 237; 102; 103; 0; 72; 0; 133; 144; 145; 137; 227;
   231; 101; 243; 121; 118; 122; 119; 124; 116; 125; 244; 123;
   117; 0; 251; 0; 248; 0; 0; 0; 0; 0; 0; 0; 240; 0;
   249; 0; 0; 0; 0; 0; 241; 242; 0; 236; 0; 235; 232; 234;
   233; 0; 0; 0; 0; 0; 0; 250; 0; 0; 247; 245; 246; 182;
   183; 0; 0; 104; 105; 106; 107; 108; 109; 110; 111; 112; 113;
   114].

(** [var kb_mod map[uint16]byte]: modifier code to modifier bit. *)
Definition kb_mod : gmap N Z :=
  list_to_map
    [(29%N, 0x01); (97%N, 0x10); (42%N, 0x02); (54%N, 0x20);
     (56%N, 0x04); (100%N, 0x40); (125%N, 0x08); (126%N, 0x80)].

(** Outcome of a piece of Go code that may hit a run-time panic. *)
Inductive result (A : Type) : Type :=
  | Ok (a : A)
  | Panic (why : string).
Arguments Ok {A} a.
Arguments Panic {A} why.

(** Sequencing stops at the first panic; with this instance stdpp's
    [x ← r; k] is the notation for it. *)
#[export] Instance result_bind : MBind result := λ A B k r,
  match r with
  | Ok a => k a
  | Panic why => Panic why
  end.

(** [m[k]] on a Go map: the zero value when the key is absent. *)
Definition map_get {K V : Type} `{Countable K}
    (zero : V) (m : gmap K V) (k : K) : V :=
  default zero (m !! k).

(** [a[i]] on a slice or array. *)
Definition index (a : list Z) (i : Z) : result Z :=
  if decide (0 ≤ i < Z.of_nat (length a)) then
    match a !! Z.to_nat i with
    | Some x => Ok x
    | None => Panic "index out of range"
    end
  else Panic "index out of range".

(** [a[i] = v]. *)
Definition store (a : list Z) (i : Z) (v : Z) : result (list Z) :=
  if decide (0 ≤ i < Z.of_nat (length a)) then Ok (<[Z.to_nat i := v]> a)
  else Panic "index out of range".

(** [a[lo:hi]]. *)
Definition slice (a : list Z) (lo hi : Z) : result (list Z) :=
  if decide (0 ≤ lo ∧ lo ≤ hi ∧ hi ≤ Z.of_nat (length a)) then
    Ok (take (Z.to_nat (hi - lo)) (drop (Z.to_nat lo) a))
  else Panic "slice bounds out of range".

(** [ModifierTable]: [kb_mod[code]]. *)
Definition ModifierTable (code : N) : Z := map_get 0 kb_mod code.

(** [ScancodeTable]: [mapping[code]], a slice access. *)
Definition ScancodeTable (code : N) : result Z := index mapping (Z.of_N code).

(** ** Report state *)

(** [evdev.Event] without its time stamp, which the program never reads. *)
Record Event : Type := mkEvent { Type_ : N; Code : N; Value : Z }.

(** The fields of [UsbHid] that [updateReport] works on. *)
Record UsbHid : Type := mkUsbHid { report : list Z; keys : Z }.

(** [new(UsbHid)]: the zero value. *)
Definition zeroed : UsbHid := mkUsbHid (replicate 8 0) 0.

(** What the program does to the outside, in program order. *)
Inductive io : Type :=
  | Printed (s : string)
  | Write (data : list Z)
  | Sync
  | Close.

(** The search loop of [updateReport]:
    [for i, c := range s { if c == u { keyPos = i; break } }] started with
    [keyPos = -1]; [i] is the index of the head of [s]. *)
Fixpoint find_key (u : Z) (s : list Z) (i : Z) : Z :=
  match s with
  | [] => -1
  | c :: s' => if decide (c = u) then i else find_key u s' (i + 1)
  end.

(** A line feed, and the line that
    [fmt.Printf("Warning: No mapping for event code: %d\n", ev.Code)]
    prints. *)
Definition newline : string := String (Ascii.ascii_of_nat 10) "".

Definition warning (code : N) : string :=
  "Warning: No mapping for event code: " +:+ pretty code +:+ newline.

(** [func (hid *UsbHid) updateReport(ev evdev.Event)]: the new state and what
    was printed. *)
Definition updateReport (ev : Event) (hid : UsbHid)
  : result (UsbHid * list io) :=
  if decide (Type_ ev = evdev.EvKeys) then
    if decide (ModifierTable (Code ev) ≠ 0) then
      (* This code is a modifier *)
      r0 ← index (report hid) 0;
      if decide (Value ev ≠ 0) then
        rep ← store (report hid) 0 (Z.lor r0 (ModifierTable (Code ev)));
        Ok (mkUsbHid rep (keys hid), [])
      else
        rep ← store (report hid) 0 (Z.ldiff r0 (ModifierTable (Code ev)));
        Ok (mkUsbHid rep (keys hid), [])
    else
      (* This code is a normal key *)
      u ← ScancodeTable (Code ev);
      if decide (u = 0) then Ok (hid, [Printed (warning (Code ev))])
      else
        s ← slice (report hid) 2 (2 + keys hid);
        let keyPos := find_key u s 0 in
        if decide (keyPos ≠ -1) then
          if decide (Value ev = 0) then
            rep1 ← (if decide (keys hid > keyPos) then
                      v ← index (report hid) (keys hid + 1);
                      store (report hid) (keyPos + 2) v
                    else Ok (report hid));
            rep2 ← store rep1 (keys hid + 1) 0;
            Ok (mkUsbHid rep2 (keys hid - 1), [])
          else Ok (hid, [])
        else
          if decide (keys hid < Z.of_nat (length (report hid)) - 2) then
            rep ← store (report hid) (2 + keys hid) u;
            Ok (mkUsbHid rep (keys hid + 1), [])
          else
            rep ← store (report hid) (Z.of_nat (length (report hid)) - 1) u;
            Ok (mkUsbHid rep (keys hid), [])
  else Ok (hid, []).

(** The events the program builds: [Event{Type: EvKeys, Code: c, Value: v}].
    A value other than 0 is a press, 0 is a release. *)
Definition KeyEvent (c : N) (v : Z) : Event := mkEvent evdev.EvKeys c v.
Definition Down (c : N) : Event := KeyEvent c 1.
Definition Up (c : N) : Event := KeyEvent c 0.

(** [updateReport] over a sequence of events, output dropped. *)
Fixpoint run (evs : list Event) (hid : UsbHid) : result UsbHid :=
  match evs with
  | [] => Ok hid
  | ev :: evs' => r ← updateReport ev hid; run evs' r.1
  end.

(** The states a session can be in: those [updateReport] reaches from the
    zero value. *)
Inductive reachable : UsbHid → Prop :=
  | reach_zeroed : reachable zeroed
  | reach_step hid ev hid' out :
      reachable hid →
      updateReport ev hid = Ok (hid', out) →
      reachable hid'.

(** ** Serialized writer *)

(** What one turn of the [select] in [eventWriter] receives. *)
Inductive msg : Type :=
  | RecvEv (ev : Event)
  | RecvExit.

(** How a run of [eventWriter] over a finite inbox ends. *)
Inductive ending : Type :=
  | Returned
  | Waiting
  | Crashed (why : string).

(** [func eventWriter(hid *UsbHid)].  [inbox] is what the [select] receives,
    in order; [accepted k] is the byte count [n] that the [k]-th call of
    [hid.file.Write] returns.  The deferred [hid.file.Close()] runs on every
    way out of the function. *)
Fixpoint eventWriter (hid : UsbHid) (inbox : list msg)
    (accepted : nat → Z) (k : nat) : list io * UsbHid * ending :=
  match inbox with
  | [] => ([], hid, Waiting)
  | RecvExit :: _ => ([Close], hid, Returned)
  | RecvEv ev :: inbox' =>
      match updateReport ev hid with
      | Panic why => ([Close], hid, Crashed why)
      | Ok (hid', out) =>
          let n := accepted k in
          if decide (n ≠ Z.of_nat (length (report hid'))) then
            (out ++ [Write (report hid');
                     Printed ("ERROR: Write failed" +:+ newline);
                     Close],
             hid', Returned)
          else
            let '(t, h, e) := eventWriter hid' inbox' accepted (S k) in
            (out ++ Write (report hid') :: Sync :: t, h, e)
      end
  end.

(** ** Event producer *)

Definition rune (c : ascii) : Z := Z.of_nat (nat_of_ascii c).

Definition tcelltoev : gmap Z N :=
  list_to_map
    [(rune "0", evdev.Key0); (rune "1", evdev.Key1); (rune "2", evdev.Key2);
     (rune "3", evdev.Key3); (rune "4", evdev.Key4); (rune "5", evdev.Key5);
     (rune "6", evdev.Key6); (rune "7", evdev.Key7); (rune "8", evdev.Key8);
     (rune "9", evdev.Key9);
     (rune "a", evdev.KeyA); (rune "b", evdev.KeyB); (rune "c", evdev.KeyC);
     (rune "d", evdev.KeyD); (rune "e", evdev.KeyE); (rune "f", evdev.KeyF);
     (rune "g", evdev.KeyG); (rune "h", evdev.KeyH); (rune "i", evdev.KeyI);
     (rune "j", evdev.KeyJ); (rune "k", evdev.KeyK); (rune "l", evdev.KeyL);
     (rune "m", evdev.KeyM); (rune "n", evdev.KeyN); (rune "o", evdev.KeyO);
     (rune "p", evdev.KeyP); (rune "q", evdev.KeyQ); (rune "r", evdev.KeyR);
     (rune "s", evdev.KeyS); (rune "t", evdev.KeyT); (rune "u", evdev.KeyU);
     (rune "v", evdev.KeyV); (rune "w", evdev.KeyW); (rune "x", evdev.KeyX);
     (rune "y", evdev.KeyY); (rune "z", evdev.KeyZ);
     (rune " ", evdev.KeySpace); (rune "=", evdev.KeyEqual);
     (rune ",", evdev.KeyComma); (rune ".", evdev.KeyDot);
     (rune "[", evdev.KeyLeftBrace); (rune "]", evdev.KeyRightBrace);
     (rune ";", evdev.KeySemiColon); (rune "'", evdev.KeyApostrophe);
     (rune "/", evdev.KeySlash); (rune "\", evdev.KeyBackSlash);
     (tcell.KeyBackspace2, evdev.KeyBackSpace);
     (tcell.KeyBackspace, evdev.KeyBackSpace);
     (tcell.KeyEnter, evdev.KeyEnter);
     (tcell.KeyUp, evdev.KeyUp); (tcell.KeyDown, evdev.KeyDown);
     (tcell.KeyLeft, evdev.KeyLeft); (tcell.KeyRight, evdev.KeyRight);
     (tcell.KeyTAB, evdev.KeyTab); (tcell.KeyEsc, evdev.KeyEscape)].

(** [tcell.KeyCtrlA .. tcell.KeyCtrlZ] are consecutive. *)
Definition tcellctrltoev : gmap Z N :=
  list_to_map
    (zip (Z.add tcell.KeyCtrlA <$> (Z.of_nat <$> seq 0 26))
       [evdev.KeyA; evdev.KeyB; evdev.KeyC; evdev.KeyD; evdev.KeyE;
        evdev.KeyF; evdev.KeyG; evdev.KeyH; evdev.KeyI; evdev.KeyJ;
        evdev.KeyK; evdev.KeyL; evdev.KeyM; evdev.KeyN; evdev.KeyO;
        evdev.KeyP; evdev.KeyQ; evdev.KeyR; evdev.KeyS; evdev.KeyT;
        evdev.KeyU; evdev.KeyV; evdev.KeyW; evdev.KeyX; evdev.KeyY;
        evdev.KeyZ]).

(** The double quote is rune 34. *)
Definition tcellshiftokey : gmap Z N :=
  list_to_map
    [(rune "!", evdev.Key1); (rune "@", evdev.Key2); (rune "#", evdev.Key3);
     (rune "$", evdev.Key4); (rune "%", evdev.Key5); (rune "^", evdev.Key6);
     (rune "&", evdev.Key7); (rune "*", evdev.Key8); (rune "(", evdev.Key9);
     (rune ")", evdev.Key0); (rune "_", evdev.KeyMinus);
     (rune "+", evdev.KeyEqual); (rune "{", evdev.KeyLeftBrace);
     (rune "}", evdev.KeyRightBrace); (34, evdev.KeyApostrophe);
     (rune "/", evdev.KeySlash); (rune "<", evdev.KeyComma);
     (rune ">", evdev.KeyDot); (rune "|", evdev.KeyBackSlash)].

(** The [*tcell.EventKey] case of the loop in [main]: the events forwarded
    for one key of the terminal, [ctrl] being
    [ev.Modifiers()&tcell.ModCtrl != 0] and [pressedkey] being [ev.Rune()]. *)
Definition keystroke (ctrl : bool) (pressedkey : Z) : list Event :=
  if ctrl then
    let modkey := evdev.KeyLeftCtrl in
    let key := map_get 0%N tcellctrltoev pressedkey in
    [Down modkey; Down key; Up key; Up modkey]
  else
    let '(sent, shifted, key) :=
      match tcellshiftokey !! pressedkey with
      | Some key => ([Down evdev.KeyLeftShift], true, key)
      | None =>
          if decide (rune "A" ≤ pressedkey ∧ pressedkey ≤ rune "Z") then
            ([Down evdev.KeyLeftShift], true,
             map_get 0%N tcelltoev (pressedkey + (rune "a" - rune "A")))
          else ([], false, map_get 0%N tcelltoev pressedkey)
      end in
    sent ++ [Down key; Up key]
         ++ (if shifted then [Up evdev.KeyLeftShift] else []).

(** ** Specification vocabulary *)

(** A code of a regular key: not a modifier, and the table gives it the
    non-zero usage ID [u]. *)
Definition regular (c : N) (u : Z) : Prop :=
  ModifierTable c = 0 ∧ ScancodeTable c = Ok u ∧ u ≠ 0.

(** The active prefix, slots [2 .. 2+keys) of the report. *)
Definition active (hid : UsbHid) : list Z :=
  take (Z.to_nat (keys hid)) (drop 2 (report hid)).

(** The non-zero bytes among bytes 2..7, with multiplicity and in slot order. *)
Definition pressed (hid : UsbHid) : list Z :=
  filter (λ b, b ≠ 0) (drop 2 (report hid)).

(** The invariant of the report state. *)
Record ReportInv (hid : UsbHid) : Prop := {
  inv_size : length (report hid) = 8%nat;
  inv_range : 0 ≤ keys hid ≤ 6;
  inv_count : keys hid = Z.of_nat (length (pressed hid));
  inv_prefix : ∀ (i : nat) b,
    report hid !! i = Some b → (2 ≤ i)%nat → b ≠ 0 → Z.of_nat i < 2 + keys hid;
  inv_reserved : report hid !! 1%nat = Some 0
}.

(** A report with modifier byte [m], reserved byte [r] and the usage IDs [us]
    in its first slots. *)
Definition layout (m r : Z) (us : list Z) : list Z :=
  m :: r :: us ++ replicate (6 - length us) 0.

(** Swap-with-last removal of slot [p] among the active usage IDs [us]. *)
Definition swap_remove (p : nat) (us : list Z) : list Z :=
  take (length us - 1) (<[p := default 0 (last us)]> us).

(** The key of the terminal has no entry in the table that [keystroke]
    consults for it: the control table when control is held, else the shift
    table and then the base table (after an upper-case letter has been
    lowered). *)
Definition no_entry (ctrl : bool) (k : Z) : Prop :=
  if ctrl then tcellctrltoev !! k = None
  else tcellshiftokey !! k = None
       ∧ tcelltoev !! (if decide (rune "A" ≤ k ∧ k ≤ rune "Z")
                       then k + (rune "a" - rune "A") else k) = None.

(** The shape of the states of a session: some modifier byte, a zero
    reserved byte, at most six non-zero usage IDs in the first slots. *)
Definition shaped (hid : UsbHid) : Prop :=
  ∃ m us,
    hid = mkUsbHid (layout m 0 us) (Z.of_nat (length us))
    ∧ (length us ≤ 6)%nat ∧ Forall (λ b, b ≠ 0) us.

(** ** The rollover machine on the active usage IDs

    What [updateReport] does, seen on the list of the usage IDs in the
    active slots alone, for an event of value [v] of a regular key with usage
    ID [u]: the comparison is [updateReport_key] below. *)
Definition key_step (u v : Z) (us : list Z) : list Z :=
  if decide (u ∈ us) then
    if decide (v = 0) then swap_remove (Z.to_nat (find_key u us 0)) us
    else us
  else
    if decide (length us < 6)%nat then us ++ [u] else <[5%nat := u]> us.

(** Bit [i] of the modifier byte after an event, [b] being the bit before:
    only a key event of the modifier code that owns the bit changes it. *)
Definition mod_bit (i : Z) (b : bool) (ev : Event) : bool :=
  if decide (Type_ ev = evdev.EvKeys ∧ ModifierTable (Code ev) = 2 ^ i)
  then bool_decide (Value ev ≠ 0) else b.

(** The modifier byte of a state. *)
Definition modifiers (hid : UsbHid) : Z := default 0 (report hid !! 0%nat).

(** The full shape of the states of a session: a modifier byte, a zero
    reserved byte, and at most six pairwise distinct non-zero usage IDs in the
    first slots, every one of them a byte. *)
Definition tidy (hid : UsbHid) : Prop :=
  ∃ m us,
    hid = mkUsbHid (layout m 0 us) (Z.of_nat (length us))
    ∧ (length us ≤ 6)%nat
    ∧ Forall (λ b, 0 < b < 256) us
    ∧ NoDup us
    ∧ 0 ≤ m < 256.

(** The operations on the device file in a trace, in order: what was printed
    is left out. *)
Fixpoint device (t : list io) : list io :=
  match t with
  | [] => []
  | Printed _ :: t' => device t'
  | x :: t' => x :: device t'
  end.

(** The states after each event of a sequence, up to the first panic. *)
Fixpoint states (evs : list Event) (hid : UsbHid) : list UsbHid :=
  match evs with
  | [] => []
  | ev :: evs' =>
      match updateReport ev hid with
      | Ok (hid', _) => hid' :: states evs' hid'
      | Panic _ => []
      end
  end.

#[export] Instance Event_eq_dec : EqDecision Event.
Proof. solve_decision. Defined.

#[export] Instance UsbHid_eq_dec : EqDecision UsbHid.
Proof. solve_decision. Defined.

(** The events that [main] forwards for a sequence of keys of the terminal,
    each given as its control flag and its rune. *)
Definition keystrokes (ks : list (bool * Z)) : list Event :=
  ks ≫= λ '(ctrl, k), keystroke ctrl k.

(** ** The screen *)

(** Box-drawing runes of [tcell]. *)
Definition RuneHLine : Z := 0x2500.
Definition RuneVLine : Z := 0x2502.
Definition RuneULCorner : Z := 0x250c.
Definition RuneURCorner : Z := 0x2510.
Definition RuneLLCorner : Z := 0x2514.
Definition RuneLRCorner : Z := 0x2518.

(** One call [s.SetContent(x, y, mainc, combc, style)] on the screen.  The
    functions that draw are modelled by the calls they make, in order. *)
Record SetContent : Type := mkSetContent {
  cx : Z; cy : Z; mainc : Z; combc : list Z; cstyle : Z
}.

#[export] Instance SetContent_eq_dec : EqDecision SetContent.
Proof. solve_decision. Defined.

(** The coordinates for which the loops of [drawBox] count without wrapping
    around: Go ints below the largest one. *)
Definition coord (n : Z) : Prop := - 2 ^ 63 ≤ n < 2 ^ 63 - 1.

(** The four loops and the corner block of [drawBox], for corners already in
    order. *)
Definition hlines (x1 y1 x2 y2 style : Z) : list SetContent :=
  col ← seqZ x1 (x2 - x1 + 1);
  [mkSetContent col y1 RuneHLine [] style;
   mkSetContent col y2 RuneHLine [] style].

Definition vlines (x1 y1 x2 y2 style : Z) : list SetContent :=
  row ← seqZ (y1 + 1) (y2 - (y1 + 1));
  [mkSetContent x1 row RuneVLine [] style;
   mkSetContent x2 row RuneVLine [] style].

Definition corners (x1 y1 x2 y2 style : Z) : list SetContent :=
  [mkSetContent x1 y1 RuneULCorner [] style;
   mkSetContent x2 y1 RuneURCorner [] style;
   mkSetContent x1 y2 RuneLLCorner [] style;
   mkSetContent x2 y2 RuneLRCorner [] style].

Definition fill (x1 y1 x2 y2 style r : Z) : list SetContent :=
  row ← seqZ (y1 + 1) (y2 - (y1 + 1));
  col ← seqZ (x1 + 1) (x2 - (x1 + 1));
  [mkSetContent col row r [] style].

(** [func drawBox(s, x1, y1, x2, y2, style, r)]. *)
Definition drawBox (x1 y1 x2 y2 style r : Z) : list SetContent :=
  let '(y1, y2) := if decide (y2 < y1) then (y2, y1) else (y1, y2) in
  let '(x1, x2) := if decide (x2 < x1) then (x2, x1) else (x1, x2) in
  hlines x1 y1 x2 y2 style
  ++ vlines x1 y1 x2 y2 style
  ++ (if decide (y1 ≠ y2 ∧ x1 ≠ x2) then corners x1 y1 x2 y2 style else [])
  ++ fill x1 y1 x2 y2 style r.

(** What a cell shows after a sequence of calls: the rune of the last call
    on that cell. *)
Definition shown (t : list SetContent) (x y : Z) : option Z :=
  mainc <$> last (filter (λ c, cx c = x ∧ cy c = y) t).

(** The picture of a box with corners [(x1, y1)] (upper left) and [(x2, y2)]
    (lower right): the rune of each cell.  It is written from the picture,
    to be compared with what [drawBox] leaves on the screen. *)
Definition box_glyph (x1 y1 x2 y2 r x y : Z) : option Z :=
  if decide (x1 < x < x2 ∧ y1 < y < y2) then Some r
  else if decide (x1 ≠ x2 ∧ y1 ≠ y2 ∧ x = x1 ∧ y = y1) then Some RuneULCorner
  else if decide (x1 ≠ x2 ∧ y1 ≠ y2 ∧ x = x2 ∧ y = y1) then Some RuneURCorner
  else if decide (x1 ≠ x2 ∧ y1 ≠ y2 ∧ x = x1 ∧ y = y2) then Some RuneLLCorner
  else if decide (x1 ≠ x2 ∧ y1 ≠ y2 ∧ x = x2 ∧ y = y2) then Some RuneLRCorner
  else if decide ((x = x1 ∨ x = x2) ∧ y1 < y < y2) then Some RuneVLine
  else if decide (x1 ≤ x ≤ x2 ∧ (y = y1 ∨ y = y2)) then Some RuneHLine
  else None.

(** The result of a Go [int] operation: wrapped around to 64 bits. *)
Definition wrap64 (n : Z) : Z := (n + 2 ^ 63) mod 2 ^ 64 - 2 ^ 63.

(** [func emitStr(s, x, y, style, str)].  [str] is the string as the [range]
    loop sees it, rune by rune; [RuneWidth] is [runewidth.RuneWidth]. *)
Fixpoint emitStr (RuneWidth : Z → Z) (x y style : Z) (str : list Z)
  : list SetContent :=
  match str with
  | [] => []
  | c :: str' =>
      let w := RuneWidth c in
      let '(c', comb, w') :=
        if decide (w = 0) then (rune " ", [c], 1) else (c, [], w) in
      mkSetContent x y c' comb style
      :: emitStr RuneWidth (wrap64 (x + w')) y style str'
  end.

(** The rune that a call of [emitStr] stands for: the combining rune when
    there is one, the main rune otherwise. *)
Definition emitted (c : SetContent) : Z :=
  match combc c with
  | [r] => r
  | _ => mainc c
  end.

(** ** Leaving the program *)

Definition KeyCtrlL : Z := tcell.KeyCtrlA + 11.

(** An event of the terminal, as far as the escape counter of [main] goes: a
    key with its [ev.Key()], or anything else (resize, mouse, unknown). *)
Inductive ui_event : Type :=
  | UiKey (key : Z)
  | UiOther.

(** The counter [ecnt] after one event; [None] is [os.Exit(0)].  The counter
    is a Go [int] that never leaves 0 and 1. *)
Definition esc_step (ecnt : Z) (e : ui_event) : option Z :=
  match e with
  | UiKey key =>
      if decide (key = tcell.KeyEsc) then
        if decide (ecnt + 1 > 1) then None else Some (ecnt + 1)
      else if decide (key = KeyCtrlL) then Some ecnt
      else Some 0
  | UiOther => Some ecnt
  end.

(** The loop of [main] over the events of the terminal, started with the
    counter at [ecnt], as far as the counter goes: what else the loop does
    for an event (forwarding the key, drawing) is taken to return. *)
Fixpoint esc_loop (evs : list ui_event) (ecnt : Z) : option Z :=
  match evs with
  | [] => Some ecnt
  | e :: evs' =>
      match esc_step ecnt e with
      | None => None
      | Some ecnt' => esc_loop evs' ecnt'
      end
  end.

(** Events that leave the counter alone. *)
Definition neutral (e : ui_event) : Prop := e = UiOther ∨ e = UiKey KeyCtrlL.

(** Two escape keys with nothing but neutral events between them. *)
Definition two_escapes (evs : list ui_event) : Prop :=
  ∃ a b c,
    evs = a ++ UiKey tcell.KeyEsc :: b ++ UiKey tcell.KeyEsc :: c
    ∧ Forall neutral b.

(** * Properties *)

(** ** Arrays *)

Section arrays.
Implicit Types (a us : list Z) (i v u m r : Z).

Lemma index_Ok a (n : nat) v : a !! n = Some v → index a (Z.of_nat n) = Ok v.
Proof.
  intros Hn. unfold index. pose proof (lookup_lt_Some _ _ _ Hn).
  rewrite decide_True by lia. by rewrite Nat2Z.id, Hn.
Qed.

Lemma store_Ok a (n : nat) v :
  (n < length a)%nat → store a (Z.of_nat n) v = Ok (<[n := v]> a).
Proof.
  intros Hn. unfold store. rewrite decide_True by lia. by rewrite Nat2Z.id.
Qed.

Lemma store_length a i v a' : store a i v = Ok a' → length a' = length a.
Proof.
  unfold store. case_decide; [|done]. intros [= <-]. apply length_insert.
Qed.

Lemma layout_length m r us :
  (length us ≤ 6)%nat → length (layout m r us) = 8%nat.
Proof.
  intros Hn. unfold layout. simpl. rewrite length_app, length_replicate. lia.
Qed.

Lemma layout_slice m r us :
  (length us ≤ 6)%nat →
  slice (layout m r us) 2 (2 + Z.of_nat (length us)) = Ok us.
Proof.
  intros Hn. unfold slice. rewrite layout_length by done.
  rewrite decide_True by lia. f_equal.
  replace (Z.to_nat (2 + Z.of_nat (length us) - 2)) with (length us) by lia.
  change (Z.to_nat 2) with 2%nat. unfold layout. simpl drop.
  rewrite drop_0. by rewrite take_app_length.
Qed.

Lemma layout_lookup_active m r us (p : nat) :
  (p < length us)%nat → layout m r us !! (2 + p)%nat = us !! p.
Proof. intros Hp. unfold layout. simpl. by rewrite lookup_app_l. Qed.

Lemma layout_insert_active m r us (p : nat) v :
  (p < length us)%nat →
  <[(2 + p)%nat := v]> (layout m r us) = layout m r (<[p := v]> us).
Proof.
  intros Hp. unfold layout. simpl. rewrite insert_app_l by done.
  by rewrite length_insert.
Qed.

Lemma layout_push m r us u :
  (length us < 6)%nat →
  <[(2 + length us)%nat := u]> (layout m r us) = layout m r (us ++ [u]).
Proof.
  intros Hn. unfold layout. simpl. f_equal. f_equal.
  rewrite insert_app_r_alt by lia. rewrite Nat.sub_diag, length_app. simpl.
  destruct (6 - length us)%nat as [|k] eqn:Hk; [lia|].
  replace (6 - (length us + 1))%nat with k by lia.
  simpl. by rewrite <- app_assoc.
Qed.

Lemma layout_pop m r us :
  (0 < length us ≤ 6)%nat →
  <[(1 + length us)%nat := 0]> (layout m r us)
  = layout m r (take (length us - 1) us).
Proof.
  intros Hn. destruct us as [|x us _] using rev_ind; [cbn in Hn; lia|].
  rewrite length_app in *. simpl length in *.
  replace (length us + 1 - 1)%nat with (length us) by lia.
  rewrite take_app_length.
  replace (1 + (length us + 1))%nat with (2 + length us)%nat by lia.
  unfold layout. simpl. f_equal. f_equal. rewrite <- app_assoc.
  rewrite insert_app_r_alt by lia. rewrite Nat.sub_diag. simpl.
  f_equal. rewrite length_app. simpl.
  replace (6 - length us)%nat with (S (6 - (length us + 1)))%nat by lia.
  done.
Qed.

Lemma layout_swap_remove m r us (p : nat) l :
  (p < length us ≤ 6)%nat → last us = Some l →
  <[(1 + length us)%nat := 0]> (<[(2 + p)%nat := l]> (layout m r us))
  = layout m r (swap_remove p us).
Proof.
  intros Hp Hl. rewrite layout_insert_active by lia.
  rewrite <- (length_insert us p l) at 1.
  rewrite layout_pop by (rewrite length_insert; lia).
  unfold swap_remove. rewrite Hl. simpl. by rewrite length_insert.
Qed.

Lemma find_key_absent u s i : u ∉ s → find_key u s i = -1.
Proof.
  revert i. induction s as [|c s IH]; intros i Hu; [done|].
  simpl. rewrite not_elem_of_cons in Hu. destruct Hu as [Hc Hs].
  rewrite decide_False by done. by apply IH.
Qed.

Lemma find_key_spec u s i :
  0 ≤ i →
  (find_key u s i = -1 ∧ u ∉ s)
  ∨ (∃ p : nat, find_key u s i = i + Z.of_nat p ∧ s !! p = Some u).
Proof.
  revert i. induction s as [|c s IH]; intros i Hi.
  - left. split; [done|]. apply not_elem_of_nil.
  - simpl. case_decide as Hc.
    + right. exists 0%nat. subst. split; [lia|done].
    + destruct (IH (i + 1)) as [[H1 H2]|(p & H1 & H2)]; [lia|..].
      * left. split; [done|]. rewrite not_elem_of_cons. done.
      * right. exists (S p). split; [lia|done].
Qed.
End arrays.

Section arrays_search.
Implicit Types (s us : list Z) (u i : Z).

Lemma find_key_NoDup u s i (p : nat) :
  NoDup s → s !! p = Some u → find_key u s i = i + Z.of_nat p.
Proof.
  revert i p. induction s as [|c s IH]; intros i p Hnd Hp; [done|].
  apply NoDup_cons in Hnd as [Hc Hnd]. simpl. destruct p as [|p]; simpl in Hp.
  - injection Hp as ->. rewrite decide_True by done. lia.
  - rewrite decide_False.
    + rewrite (IH (i + 1) p) by done. lia.
    + intros ->. apply Hc. apply list_elem_of_lookup. eauto.
Qed.

Lemma find_key_first u s s' i :
  u ∉ s → find_key u (s ++ u :: s') i = i + Z.of_nat (length s).
Proof.
  revert i. induction s as [|c s IH]; intros i Hu; simpl.
  - rewrite decide_True by done. lia.
  - apply not_elem_of_cons in Hu as [Hc Hu].
    rewrite decide_False by done. rewrite IH by done. lia.
Qed.

Lemma swap_remove_last us u :
  swap_remove (length us) (us ++ [u]) = us.
Proof.
  unfold swap_remove. rewrite last_snoc, length_app. simpl.
  rewrite insert_app_r_alt by lia. rewrite Nat.sub_diag. simpl.
  replace (length us + 1 - 1)%nat with (length us) by lia.
  apply take_app_length.
Qed.

Lemma filter_nonzero_layout us (k : nat) :
  Forall (λ b, b ≠ 0) us →
  filter (λ b, b ≠ 0) (us ++ replicate k 0) = us.
Proof.
  intros Hus. rewrite filter_app.
  replace (filter (λ b, b ≠ 0) (replicate k 0)) with (@nil Z).
  - rewrite app_nil_r. induction Hus as [|b us Hb _ IH]; [done|].
    rewrite filter_cons_True by done. by rewrite IH.
  - induction k as [|k IH]; [done|]. simpl.
    rewrite filter_cons_False by (intros H; by apply H). done.
Qed.

Lemma swap_remove_length (p : nat) us :
  length (swap_remove p us) = (length us - 1)%nat.
Proof.
  unfold swap_remove. rewrite length_take, length_insert. lia.
Qed.

Lemma swap_remove_perm (p : nat) us u :
  us !! p = Some u → us ≡ₚ u :: swap_remove p us.
Proof.
  intros Hp. unfold swap_remove.
  destruct us as [|l us _] using rev_ind; [done|].
  rewrite last_snoc, length_app. simpl.
  replace (length us + 1 - 1)%nat with (length us) by lia.
  destruct (decide (p < length us)%nat) as [Hlt|Hge].
  - rewrite insert_app_l by done.
    rewrite <- (length_insert us p l) at 1. rewrite take_app_length.
    rewrite lookup_app_l in Hp by done.
    apply list_elem_of_split_length in Hp as (us1 & us2 & -> & ->).
    rewrite insert_app_r_alt by lia. rewrite Nat.sub_diag. simpl.
    rewrite <- app_assoc. simpl.
    rewrite <- (Permutation_middle us1 (us2 ++ [l]) u). constructor.
    rewrite <- (Permutation_middle us1 us2 l).
    rewrite (Permutation_app_comm us2 [l]). simpl.
    by rewrite Permutation_middle.
  - pose proof (lookup_lt_Some _ _ _ Hp) as Hlen.
    rewrite length_app in Hlen. simpl in Hlen.
    assert (p = length us) as -> by lia.
    rewrite list_lookup_middle in Hp by done. injection Hp as ->.
    rewrite insert_app_r_alt by lia. rewrite Nat.sub_diag. simpl.
    rewrite take_app_length. by rewrite Permutation_app_comm.
Qed.

Lemma swap_remove_Forall (P : Z → Prop) (p : nat) us :
  Forall P us → Forall P (swap_remove p us).
Proof.
  intros Hus. unfold swap_remove. apply Forall_take.
  destruct (last us) as [l|] eqn:Hl; simpl.
  - apply Forall_insert; [done|].
    apply last_Some_elem_of in Hl. by eapply Forall_forall in Hus.
  - apply last_None in Hl as ->. done.
Qed.
End arrays_search.

(** ** One step of the rollover state machine *)

Lemma bind_Ok {A B : Type} (a : A) (k : A → result B) : (Ok a ≫= k) = k a.
Proof. reflexivity. Qed.

(** Runs the continuation of a bind whose first part has returned. *)
Ltac ok_step := rewrite bind_Ok; cbv beta.

Section steps.
Implicit Types (c : N) (u v m r : Z) (us : list Z) (hid : UsbHid).

(** Events of another type are ignored. *)
Lemma updateReport_other ev hid :
  Type_ ev ≠ evdev.EvKeys → updateReport ev hid = Ok (hid, []).
Proof. intros Hty. unfold updateReport. by rewrite decide_False. Qed.

(** A modifier sets or clears its bit in byte 0. *)
Lemma updateReport_modifier c v m rest k :
  ModifierTable c ≠ 0 →
  updateReport (KeyEvent c v) (mkUsbHid (m :: rest) k)
  = Ok (mkUsbHid ((if decide (v ≠ 0) then Z.lor m (ModifierTable c)
                   else Z.ldiff m (ModifierTable c)) :: rest) k, []).
Proof.
  intros Hm. unfold updateReport. simpl.
  rewrite decide_True by done. by case_decide.
Qed.

(** A regular code without usage ID is reported and dropped. *)
Lemma updateReport_unmapped c v hid :
  ModifierTable c = 0 → ScancodeTable c = Ok 0 →
  updateReport (KeyEvent c v) hid = Ok (hid, [Printed (warning c)]).
Proof.
  intros Hm Hu. unfold updateReport. simpl.
  rewrite decide_False by (by intros []).
  rewrite Hu. reflexivity.
Qed.

(** The common prefix of the regular-key paths, up to the search. *)
Lemma updateReport_regular c u v m r us :
  regular c u → (length us ≤ 6)%nat →
  updateReport (KeyEvent c v) (mkUsbHid (layout m r us) (Z.of_nat (length us)))
  = let hid := mkUsbHid (layout m r us) (Z.of_nat (length us)) in
    let keyPos := find_key u us 0 in
    if decide (keyPos ≠ -1) then
      if decide (v = 0) then
        rep1 ← (if decide (keys hid > keyPos) then
                  x ← index (report hid) (keys hid + 1);
                  store (report hid) (keyPos + 2) x
                else Ok (report hid));
        rep2 ← store rep1 (keys hid + 1) 0;
        Ok (mkUsbHid rep2 (keys hid - 1), [])
      else Ok (hid, [])
    else
      if decide (keys hid < Z.of_nat (length (report hid)) - 2) then
        rep ← store (report hid) (2 + keys hid) u;
        Ok (mkUsbHid rep (keys hid + 1), [])
      else
        rep ← store (report hid) (Z.of_nat (length (report hid)) - 1) u;
        Ok (mkUsbHid rep (keys hid), []).
Proof.
  intros (Hm & Hu & Hnz) Hn. unfold updateReport. simpl.
  rewrite decide_False by (by intros []).
  rewrite Hu. simpl. rewrite decide_False by done.
  rewrite layout_slice by done. done.
Qed.

(** Not found, room left: appended, whatever the value of the event. *)
Lemma updateReport_append c u v m r us :
  regular c u → (length us < 6)%nat → u ∉ us →
  updateReport (KeyEvent c v) (mkUsbHid (layout m r us) (Z.of_nat (length us)))
  = Ok (mkUsbHid (layout m r (us ++ [u])) (Z.of_nat (length us) + 1), []).
Proof.
  intros Hreg Hn Hu. rewrite (updateReport_regular c u) by (done || lia).
  cbv zeta; cbn [report keys]. rewrite find_key_absent by done.
  rewrite decide_False by (by intros []).
  rewrite layout_length by lia. rewrite decide_True by lia.
  replace (2 + Z.of_nat (length us)) with (Z.of_nat (2 + length us)) by lia.
  rewrite store_Ok by (rewrite layout_length; lia). ok_step.
  by rewrite <- layout_push.
Qed.

(** Not found, six keys active: the last slot is overwritten. *)
Lemma updateReport_overflow c u v m r us :
  regular c u → length us = 6%nat → u ∉ us →
  updateReport (KeyEvent c v) (mkUsbHid (layout m r us) (Z.of_nat (length us)))
  = Ok (mkUsbHid (layout m r (<[5%nat := u]> us)) (Z.of_nat (length us)), []).
Proof.
  intros Hreg Hn Hu. rewrite (updateReport_regular c u) by (done || lia).
  cbv zeta; cbn [report keys]. rewrite find_key_absent by done.
  rewrite decide_False by (by intros []).
  rewrite layout_length by lia. rewrite decide_False by lia.
  change (Z.of_nat 8 - 1) with (Z.of_nat (2 + 5)).
  rewrite store_Ok by (rewrite layout_length; lia). ok_step.
  by rewrite <- layout_insert_active by lia.
Qed.

(** Found, and the event is a press: nothing changes. *)
Lemma updateReport_held c u v m r us :
  regular c u → (length us ≤ 6)%nat → u ∈ us → v ≠ 0 →
  updateReport (KeyEvent c v) (mkUsbHid (layout m r us) (Z.of_nat (length us)))
  = Ok (mkUsbHid (layout m r us) (Z.of_nat (length us)), []).
Proof.
  intros Hreg Hn Hu Hv. rewrite (updateReport_regular c u) by done.
  cbv zeta; cbn [report keys].
  destruct (find_key_spec u us 0) as [[_ Habs]|(p & -> & _)]; [lia|done|].
  rewrite decide_True by lia. by rewrite decide_False.
Qed.

(** Found at slot [p], and the event is a release: swap with the last
    active slot, clear that one, one key less. *)
Lemma updateReport_release_at c u m r us (p : nat) :
  regular c u → (length us ≤ 6)%nat →
  us !! p = Some u → find_key u us 0 = Z.of_nat p →
  updateReport (Up c) (mkUsbHid (layout m r us) (Z.of_nat (length us)))
  = Ok (mkUsbHid (layout m r (swap_remove p us))
                 (Z.of_nat (length us) - 1), []).
Proof.
  intros Hreg Hn Hp Hfind. unfold Up.
  rewrite (updateReport_regular c u) by done.
  cbv zeta; cbn [report keys]. rewrite Hfind.
  pose proof (lookup_lt_Some _ _ _ Hp) as Hlt.
  rewrite decide_True by lia. rewrite decide_True by done.
  rewrite decide_True by lia.
  destruct (last us) as [l|] eqn:Hl;
    [|apply last_None in Hl as ->; simpl in Hlt; lia].
  replace (Z.of_nat (length us) + 1)
    with (Z.of_nat (2 + (length us - 1))) by lia.
  rewrite (index_Ok _ _ l).
  2:{ rewrite layout_lookup_active by lia.
      rewrite last_lookup in Hl. rewrite <- Hl. f_equal. lia. }
  ok_step.
  replace (Z.of_nat p + 2) with (Z.of_nat (2 + p)) by lia.
  rewrite store_Ok by (rewrite layout_length; lia). ok_step.
  rewrite layout_insert_active by lia.
  rewrite store_Ok by (rewrite layout_length; rewrite ?length_insert; lia).
  ok_step. f_equal. f_equal. f_equal.
  replace (2 + (length us - 1))%nat with (1 + length (<[p:=l]> us))%nat
    by (rewrite length_insert; lia).
  rewrite layout_pop by (rewrite length_insert; lia).
  unfold swap_remove. rewrite Hl. simpl. by rewrite length_insert.
Qed.
End steps.

(** ** Sequences of events *)

(** Splits a hypothesis that a sequence of array operations returned. *)
Ltac returned H :=
  repeat match type of H with
  | (if decide ?P then _ else _) = Ok _ => destruct (decide P)
  | (?r ≫= _) = Ok _ =>
      let E := fresh "E" in
      destruct r eqn:E; [rewrite bind_Ok in H; cbv beta in H | discriminate H]
  end.

Section sequences.
Implicit Types (c : N) (u v m r : Z) (us : list Z) (hid : UsbHid).

Lemma updateReport_length ev hid hid' out :
  updateReport ev hid = Ok (hid', out) →
  length (report hid') = length (report hid).
Proof.
  unfold updateReport. intros H. returned H;
    injection H as <- <-; simpl;
    repeat match goal with
    | E : store _ _ _ = Ok _ |- _ => apply store_length in E
    | E : (if decide _ then _ else _) = Ok _ |- _ => returned E
    | E : Ok _ = Ok _ |- _ => injection E as <-
    end; congruence.
Qed.

Lemma updateReport_panic c v hid why :
  ModifierTable c = 0 → ScancodeTable c = Panic why →
  updateReport (KeyEvent c v) hid = Panic why.
Proof.
  intros Hm Hu. unfold updateReport. simpl.
  rewrite decide_False by (by intros []). by rewrite Hu.
Qed.

Lemma zeroed_layout :
  zeroed = mkUsbHid (layout 0 0 []) (Z.of_nat (length (@nil Z))).
Proof. reflexivity. Qed.

Lemma shaped_zeroed : shaped zeroed.
Proof. exists 0, []. split; [apply zeroed_layout|]. split; [simpl; lia|done]. Qed.

Lemma shaped_step ev hid hid' out :
  shaped hid → updateReport ev hid = Ok (hid', out) → shaped hid'.
Proof.
  intros (m & us & -> & Hn & Hnz) Hstep. destruct ev as [t c v].
  destruct (decide (t = evdev.EvKeys)) as [->|Ht].
  2:{ rewrite updateReport_other in Hstep by done.
      injection Hstep as <- <-. by exists m, us. }
  change (mkEvent evdev.EvKeys c v) with (KeyEvent c v) in Hstep.
  destruct (decide (ModifierTable c = 0)) as [Hm|Hm].
  2:{ unfold layout in Hstep. rewrite updateReport_modifier in Hstep by done.
      injection Hstep as <- <-. eexists _, us. split; [reflexivity|done]. }
  destruct (ScancodeTable c) as [u|why] eqn:Hu.
  2:{ by rewrite (updateReport_panic c v _ why) in Hstep. }
  destruct (decide (u = 0)) as [->|Hu0].
  { rewrite updateReport_unmapped in Hstep by done.
    injection Hstep as <- <-. by exists m, us. }
  assert (regular c u) as Hreg by done.
  destruct (find_key_spec u us 0) as [[_ Habs]|(p & Hfind & Hp)]; [lia|..].
  - destruct (decide (length us < 6)%nat) as [Hlt|Hge].
    + rewrite (updateReport_append c u) in Hstep by done.
      injection Hstep as <- <-. exists m, (us ++ [u]).
      rewrite length_app. simpl. split; [f_equal; lia|].
      split; [lia|]. apply Forall_app. split; [done|]. by constructor.
    + rewrite (updateReport_overflow c u) in Hstep by (done || lia).
      injection Hstep as <- <-. exists m, (<[5%nat := u]> us).
      rewrite length_insert. split; [done|]. split; [done|].
      by apply Forall_insert.
  - destruct (decide (v = 0)) as [->|Hv].
    + change (KeyEvent c 0) with (Up c) in Hstep.
      rewrite (updateReport_release_at c u _ _ _ p) in Hstep by (done || lia).
      injection Hstep as <- <-. exists m, (swap_remove p us).
      rewrite swap_remove_length.
      pose proof (lookup_lt_Some _ _ _ Hp).
      split; [f_equal; lia|]. split; [lia|].
      exact (swap_remove_Forall _ p us Hnz).
    + assert (u ∈ us) by (apply list_elem_of_lookup; eauto).
      rewrite (updateReport_held c u) in Hstep by done.
      injection Hstep as <- <-. by exists m, us.
Qed.

Lemma shaped_reachable hid : reachable hid → shaped hid.
Proof.
  induction 1 as [|hid ev hid' out _ IH Hstep]; [apply shaped_zeroed|].
  by eapply shaped_step.
Qed.

Lemma pressed_layout m r us k :
  Forall (λ b, b ≠ 0) us → pressed (mkUsbHid (layout m r us) k) = us.
Proof.
  intros Hnz. unfold pressed, layout. simpl. rewrite drop_0.
  by apply filter_nonzero_layout.
Qed.

Lemma shaped_inv hid : shaped hid → ReportInv hid.
Proof.
  intros (m & us & -> & Hn & Hnz). split; cbn [report keys].
  - by apply layout_length.
  - lia.
  - by rewrite pressed_layout.
  - intros i b Hi H2 Hb.
    destruct (decide (i < 2 + length us)%nat) as [|Hge]; [lia|].
    exfalso. apply Hb. unfold layout in Hi.
    destruct i as [|[|i]]; [lia..|]. simpl in Hi.
    rewrite lookup_app_r in Hi by lia.
    apply lookup_replicate in Hi as [-> _]. done.
  - done.
Qed.

Lemma run_cons ev evs hid :
  run (ev :: evs) hid = (r ← updateReport ev hid; run evs r.1).
Proof. reflexivity. Qed.

(** Presses of keys with fresh usage IDs fill the slots in order. *)
Lemma run_presses codes us : ∀ us0 m r,
  Forall2 regular codes us → NoDup (us0 ++ us) →
  (length (us0 ++ us) ≤ 6)%nat →
  run (Down <$> codes) (mkUsbHid (layout m r us0) (Z.of_nat (length us0)))
  = Ok (mkUsbHid (layout m r (us0 ++ us)) (Z.of_nat (length (us0 ++ us)))).
Proof.
  intros us0 m r Hreg. revert us0.
  induction Hreg as [|c u codes us Hc _ IH]; intros us0 Hnd Hn.
  - by rewrite app_nil_r.
  - rewrite length_app in Hn. simpl in Hn.
    rewrite fmap_cons, run_cons. change (Down c) with (KeyEvent c 1).
    rewrite (updateReport_append c u); [|done|lia|].
    2:{ apply NoDup_app in Hnd as (_ & Hnd & _). intros Hin.
        apply (Hnd u Hin). by left. }
    ok_step. cbn [fst].
    replace (Z.of_nat (length us0) + 1)
      with (Z.of_nat (length (us0 ++ [u])))
      by (rewrite length_app; simpl; lia).
    rewrite IH; rewrite <- ?app_assoc; simpl; try done.
    rewrite length_app. simpl. lia.
Qed.
End sequences.

(** ** The worker loop *)

Section writer.
Implicit Types (hid : UsbHid) (inbox : list msg) (accepted : nat → Z).

(** The device took the whole report: flush, then the next message. *)
Lemma eventWriter_accept hid ev hid' out inbox accepted k :
  updateReport ev hid = Ok (hid', out) →
  accepted k = Z.of_nat (length (report hid')) →
  eventWriter hid (RecvEv ev :: inbox) accepted k
  = let '(t, h, e) := eventWriter hid' inbox accepted (S k) in
    (out ++ Write (report hid') :: Sync :: t, h, e).
Proof.
  intros Hstep Hn. simpl. rewrite Hstep.
  by rewrite decide_False by (by intros []).
Qed.

(** Any other count ends the loop: one write, the message, the deferred
    close; the rest of the inbox is never looked at. *)
Lemma eventWriter_short hid ev hid' out inbox accepted k :
  updateReport ev hid = Ok (hid', out) →
  accepted k ≠ Z.of_nat (length (report hid')) →
  eventWriter hid (RecvEv ev :: inbox) accepted k
  = (out ++ [Write (report hid');
             Printed ("ERROR: Write failed" +:+ newline);
             Close],
     hid', Returned).
Proof. intros Hstep Hn. simpl. rewrite Hstep. by rewrite decide_True. Qed.
End writer.

(** ** Translation tables *)

Lemma mapping_length : length mapping = 194%nat.
Proof. reflexivity. Qed.

(** The lookup in [mapping] returns exactly for the codes below the length of
    the table. *)
Lemma ScancodeTable_defined (c : N) :
  (∃ u, ScancodeTable c = Ok u) ↔ (c < 194)%N.
Proof.
  unfold ScancodeTable, index. rewrite mapping_length. split.
  - intros [u Hu]. case_decide; [lia|done].
  - intros Hc. rewrite decide_True by lia.
    destruct (lookup_lt_is_Some_2 mapping (Z.to_nat (Z.of_N c))) as [u Hu].
    + rewrite mapping_length. lia.
    + exists u. by rewrite Hu.
Qed.

Lemma ScancodeTable_panics (c : N) :
  (194 ≤ c)%N → ScancodeTable c = Panic "index out of range".
Proof.
  intros Hc. unfold ScancodeTable, index. rewrite mapping_length.
  by rewrite decide_False by lia.
Qed.

(** The events of a key found in no table contain a press and a release of
    code 0, the zero value of the table lookups. *)
Lemma keystroke_no_entry (ctrl : bool) (k : Z) :
  no_entry ctrl k →
  ∃ before after, keystroke ctrl k = before ++ [Down 0; Up 0] ++ after.
Proof.
  unfold no_entry, keystroke, map_get. destruct ctrl.
  - intros ->. by exists [Down evdev.KeyLeftCtrl], [Up evdev.KeyLeftCtrl].
  - intros [-> Hk]. case_decide; rewrite Hk.
    + by exists [Down evdev.KeyLeftShift], [Up evdev.KeyLeftShift].
    + by exists [], [].
Qed.

(** Code 0 is a regular key for the tables: its usage ID is 3. *)
Lemma regular_code_0 : regular 0 3.
Proof. by repeat split. Qed.

Lemma active_layout m r us :
  (length us ≤ 6)%nat →
  active (mkUsbHid (layout m r us) (Z.of_nat (length us))) = us.
Proof.
  intros Hn. unfold active, layout. simpl. rewrite drop_0, Nat2Z.id.
  apply take_app_length.
Qed.

(** * The properties of the specification *)

(** C1: releasing a regular key whose usage ID is not in the active prefix
    should leave the report and the key count unchanged.  On the zeroed
    state, the release of [KeyA] (usage ID 4, regular, not active) is
    recorded as a press instead: the not-found branch of [updateReport] never
    looks at the value of the event. *)
Theorem release_untracked_is_recorded :
  regular evdev.KeyA 4
  ∧ (4 ∉ active zeroed)
  ∧ updateReport (Up evdev.KeyA) zeroed
    = Ok (mkUsbHid [0; 0; 4; 0; 0; 0; 0; 0] 1, []).
Proof.
  split; [by repeat split|]. split; [|reflexivity].
  unfold active. simpl. apply not_elem_of_nil.
Qed.

(** C2: both table lookups should return for every code.  [kb_mod] does,
    being a map; [mapping] is a slice of 194 entries, and the lookup of code
    272 (a code of [EvKeys] events of the input layer) panics, which takes
    [updateReport] and the worker with it. *)
Theorem scancode_lookup_out_of_range :
  ModifierTable 272 = 0
  ∧ ScancodeTable 272 = Panic "index out of range"
  ∧ updateReport (Down 272) zeroed = Panic "index out of range"
  ∧ eventWriter zeroed [RecvEv (Down 272); RecvEv (Down evdev.KeyA)]
      (λ _, 8) 0
    = ([Close], zeroed, Crashed "index out of range").
Proof. by repeat split. Qed.

(** C3 as it is stated fails: the press and release of code 0 that a key
    without table entry yields are not dropped.  On the rune of the minus
    sign, which is in no table, the press is recorded as usage ID 3 without
    any warning, and on a report that is full the pair evicts the key of the
    last slot. *)
Lemma unmapped_symbol_not_dropped :
  no_entry false (rune "-")
  ∧ keystroke false (rune "-") = [Down 0; Up 0]
  ∧ updateReport (Down 0) zeroed
    = Ok (mkUsbHid [0; 0; 3; 0; 0; 0; 0; 0] 1, [])
  ∧ mkUsbHid [0; 0; 3; 0; 0; 0; 0; 0] 1 ≠ zeroed
  ∧ run (Down <$> [30; 48; 46; 32; 18; 33]%N) zeroed
    = Ok (mkUsbHid [0; 0; 4; 5; 6; 7; 8; 9] 6)
  ∧ run (keystroke false (rune "-")) (mkUsbHid [0; 0; 4; 5; 6; 7; 8; 9] 6)
    = Ok (mkUsbHid [0; 0; 4; 5; 6; 7; 8; 0] 5)
  ∧ mkUsbHid [0; 0; 4; 5; 6; 7; 8; 0] 5
    ≠ mkUsbHid [0; 0; 4; 5; 6; 7; 8; 9] 6.
Proof. by repeat split. Qed.

(** C3, as the code has it: a key found in no applicable producer table
    yields a press and a release of code 0 (inside the modifier pulse, when
    there is one).  Code 0 is not unmapped, [mapping] gives it usage ID 3:
    in a reachable state with fewer than 6 active keys and without usage ID 3
    among them, the press puts 3 into slot [2+keys] and raises the key count,
    without a warning, and the release takes it out again, which restores
    the report and the key count. *)
Theorem unmapped_symbol_pulse (ctrl : bool) (k : Z) (hid : UsbHid) :
  no_entry ctrl k → reachable hid → keys hid < 6 → 3 ∉ active hid →
  (∃ before after, keystroke ctrl k = before ++ [Down 0; Up 0] ++ after)
  ∧ ∃ mid,
      updateReport (Down 0) hid = Ok (mid, [])
      ∧ report mid = <[Z.to_nat (2 + keys hid) := 3]> (report hid)
      ∧ keys mid = keys hid + 1
      ∧ updateReport (Up 0) mid = Ok (hid, []).
Proof.
  intros Hk Hreach Hkeys Hfree. split; [by apply keystroke_no_entry|].
  apply shaped_reachable in Hreach as (m & us & -> & Hn & Hnz).
  cbn [keys report] in *. rewrite active_layout in Hfree by done.
  exists (mkUsbHid (layout m 0 (us ++ [3])) (Z.of_nat (length us) + 1)).
  cbn [keys report]. split.
  { apply updateReport_append; [apply regular_code_0|lia|done]. }
  split.
  { replace (Z.to_nat (2 + Z.of_nat (length us))) with (2 + length us)%nat
      by lia.
    by rewrite layout_push by lia. }
  split; [done|].
  replace (Z.of_nat (length us) + 1) with (Z.of_nat (length (us ++ [3])))
    by (rewrite length_app; simpl; lia).
  rewrite (updateReport_release_at 0 3 _ _ _ (length us)).
  - rewrite swap_remove_last. do 3 f_equal. rewrite length_app. simpl. lia.
  - apply regular_code_0.
  - rewrite length_app. simpl. lia.
  - by rewrite list_lookup_middle.
  - rewrite find_key_first by done. lia.
Qed.

Lemma unmapped_symbol_pulse_witness :
  no_entry false (rune "-")
  ∧ reachable zeroed
  ∧ keys zeroed < 6
  ∧ (3 ∉ active zeroed)
  ∧ (∃ before after,
       keystroke false (rune "-") = before ++ [Down 0; Up 0] ++ after)
  ∧ ∃ mid,
      updateReport (Down 0) zeroed = Ok (mid, [])
      ∧ report mid = <[Z.to_nat (2 + keys zeroed) := 3]> (report zeroed)
      ∧ keys mid = keys zeroed + 1
      ∧ updateReport (Up 0) mid = Ok (zeroed, []).
Proof.
  assert (no_entry false (rune "-")) as H1 by (split; reflexivity).
  assert (keys zeroed < 6) as H3 by (simpl; lia).
  assert (3 ∉ active zeroed) as H4 by apply not_elem_of_nil.
  split; [exact H1|]. split; [exact reach_zeroed|]. split; [exact H3|].
  split; [exact H4|].
  exact (unmapped_symbol_pulse false (rune "-") zeroed H1 reach_zeroed H3 H4).
Defined.

(** C4: an event of a non-modifier code that [mapping] sends to usage ID 0
    prints the warning and leaves the report and the key count as they were,
    whatever the state and the value of the event; nothing fails, and the
    worker goes on to write the report, flush and take the next message. *)
Theorem unmapped_code_is_dropped (c : N) (v : Z) (hid : UsbHid)
    (inbox : list msg) (accepted : nat → Z) (k : nat) :
  ModifierTable c = 0 → ScancodeTable c = Ok 0 →
  updateReport (KeyEvent c v) hid = Ok (hid, [Printed (warning c)])
  ∧ (accepted k = Z.of_nat (length (report hid)) →
     eventWriter hid (RecvEv (KeyEvent c v) :: inbox) accepted k
     = let '(t, h, e) := eventWriter hid inbox accepted (S k) in
       (Printed (warning c) :: Write (report hid) :: Sync :: t, h, e)).
Proof.
  intros Hm Hu.
  pose proof (updateReport_unmapped c v hid Hm Hu) as Hstep.
  split; [done|]. intros Hn.
  by rewrite (eventWriter_accept _ _ _ _ _ _ _ Hstep Hn).
Qed.

Lemma unmapped_code_is_dropped_witness :
  ModifierTable 84 = 0 ∧ ScancodeTable 84 = Ok 0
  ∧ updateReport (KeyEvent 84 1) zeroed = Ok (zeroed, [Printed (warning 84)]).
Proof.
  split; [reflexivity|]. split; [reflexivity|].
  apply (unmapped_code_is_dropped 84 1 zeroed [] (λ _, 8) 0); reflexivity.
Defined.

(** C5: from the zeroed state, presses of six regular codes with pairwise
    distinct usage IDs put exactly these IDs into bytes 2..7 (in the order of
    the presses) with a key count of 6; the press of a seventh regular code
    with yet another usage ID returns without any message, keeps the count
    at 6 and changes byte 7, and only byte 7, to the new usage ID. *)
Theorem rollover_capacity (codes : list N) (us : list Z) (c7 : N) (u7 : Z) :
  Forall2 regular codes us → length codes = 6%nat → NoDup us →
  regular c7 u7 → u7 ∉ us →
  ∃ st6 st7,
    run (Down <$> codes) zeroed = Ok st6
    ∧ report st6 = [0; 0] ++ us
    ∧ drop 2 (report st6) ≡ₚ us
    ∧ keys st6 = 6
    ∧ updateReport (Down c7) st6 = Ok (st7, [])
    ∧ keys st7 = 6
    ∧ report st7 = <[7%nat := u7]> (report st6).
Proof.
  intros Hreg Hlen Hnd Hreg7 Hu7.
  assert (length us = 6%nat) as Hus
    by (by rewrite <- (Forall2_length _ _ _ Hreg)).
  exists (mkUsbHid (layout 0 0 us) (Z.of_nat (length us))).
  exists (mkUsbHid (layout 0 0 (<[5%nat := u7]> us)) (Z.of_nat (length us))).
  assert (layout 0 0 us = [0; 0] ++ us) as Hlay.
  { unfold layout. rewrite Hus. simpl. by rewrite app_nil_r. }
  split.
  { rewrite zeroed_layout. rewrite (run_presses codes us []); simpl; try done.
    lia. }
  cbn [report keys]. split; [done|]. split; [by rewrite Hlay|].
  split; [lia|]. split.
  { unfold Down. by rewrite (updateReport_overflow c7 u7). }
  split; [lia|].
  change 7%nat with (2 + 5)%nat. by rewrite layout_insert_active by lia.
Qed.

Lemma rollover_capacity_witness :
  Forall2 regular [30; 48; 46; 32; 18; 33]%N [4; 5; 6; 7; 8; 9]
  ∧ NoDup [4; 5; 6; 7; 8; 9]
  ∧ regular 34 10
  ∧ (10 ∉ [4; 5; 6; 7; 8; 9])
  ∧ ∃ st6 st7,
      run (Down <$> [30; 48; 46; 32; 18; 33]%N) zeroed = Ok st6
      ∧ report st6 = [0; 0] ++ [4; 5; 6; 7; 8; 9]
      ∧ drop 2 (report st6) ≡ₚ [4; 5; 6; 7; 8; 9]
      ∧ keys st6 = 6
      ∧ updateReport (Down 34) st6 = Ok (st7, [])
      ∧ keys st7 = 6
      ∧ report st7 = <[7%nat := 10]> (report st6).
Proof.
  assert (Forall2 regular [30; 48; 46; 32; 18; 33]%N [4; 5; 6; 7; 8; 9]) as H1
    by (repeat constructor; lia).
  assert (NoDup [4; 5; 6; 7; 8; 9]) as H2
    by (apply (bool_decide_unpack _); vm_compute; exact I).
  assert (regular 34 10) as H3 by (repeat constructor; lia).
  assert (10 ∉ [4; 5; 6; 7; 8; 9]) as H4
    by (apply (bool_decide_unpack _); vm_compute; exact I).
  split; [exact H1|]. split; [exact H2|]. split; [exact H3|].
  split; [exact H4|].
  exact (rollover_capacity _ _ 34%N 10 H1 eq_refl H2 H3 H4).
Defined.

(** C6: in the state reached by presses of at most six regular codes with
    pairwise distinct usage IDs, the release of a key whose usage ID sits in
    an active slot other than the last one copies the value of the last
    active slot (slot [2+keys-1]) into the found slot, zeroes the last active
    slot and lowers the key count by exactly 1; the non-zero bytes among
    bytes 2..7 are afterwards those of before without the released usage
    ID. *)
Theorem swap_remove_correct (codes : list N) (us : list Z)
    (p : nat) (c : N) (u : Z) :
  Forall2 regular codes us → (length codes ≤ 6)%nat → NoDup us →
  regular c u → us !! p = Some u → (p + 1 < length us)%nat →
  ∃ st st' l,
    run (Down <$> codes) zeroed = Ok st
    ∧ keys st = Z.of_nat (length us)
    ∧ report st !! (2 + p)%nat = Some u
    ∧ report st !! Z.to_nat (2 + keys st - 1) = Some l
    ∧ updateReport (Up c) st = Ok (st', [])
    ∧ report st'
      = <[Z.to_nat (2 + keys st - 1) := 0]> (<[(2 + p)%nat := l]> (report st))
    ∧ keys st' = keys st - 1
    ∧ pressed st ≡ₚ u :: pressed st'.
Proof.
  intros Hreg Hlen Hnd Hc Hp Hlast.
  assert (length us ≤ 6)%nat as Hus
    by (by rewrite <- (Forall2_length _ _ _ Hreg)).
  assert (Forall (λ b, b ≠ 0) us) as Hnz.
  { clear -Hreg. induction Hreg as [|? ? ? ? (_ & _ & ?)]; by constructor. }
  destruct (last us) as [l|] eqn:Hl;
    [|apply last_None in Hl as ->; simpl in Hlast; lia].
  exists (mkUsbHid (layout 0 0 us) (Z.of_nat (length us))).
  exists (mkUsbHid (layout 0 0 (swap_remove p us)) (Z.of_nat (length us) - 1)).
  exists l. cbn [report keys].
  replace (Z.to_nat (2 + Z.of_nat (length us) - 1))
    with (1 + length us)%nat by lia.
  split.
  { rewrite zeroed_layout. rewrite (run_presses codes us []); simpl; try done. }
  split; [done|]. split; [by rewrite layout_lookup_active by lia|]. split.
  { replace (1 + length us)%nat with (2 + (length us - 1))%nat by lia.
    rewrite layout_lookup_active by lia. rewrite last_lookup in Hl.
    rewrite <- Hl. f_equal. lia. }
  split.
  { apply (updateReport_release_at c u); try done.
    by rewrite (find_key_NoDup u us 0 p). }
  split; [by rewrite layout_swap_remove by (done || lia)|].
  split; [done|].
  rewrite !pressed_layout; [|exact (swap_remove_Forall _ p us Hnz)|done].
  by apply swap_remove_perm.
Qed.

Lemma swap_remove_correct_witness :
  Forall2 regular [30; 48; 46]%N [4; 5; 6]
  ∧ NoDup [4; 5; 6]
  ∧ regular 30 4
  ∧ ∃ st st' l,
      run (Down <$> [30; 48; 46]%N) zeroed = Ok st
      ∧ keys st = Z.of_nat (length [4; 5; 6])
      ∧ report st !! (2 + 0)%nat = Some 4
      ∧ report st !! Z.to_nat (2 + keys st - 1) = Some l
      ∧ updateReport (Up 30) st = Ok (st', [])
      ∧ report st'
        = <[Z.to_nat (2 + keys st - 1) := 0]>
            (<[(2 + 0)%nat := l]> (report st))
      ∧ keys st' = keys st - 1
      ∧ pressed st ≡ₚ 4 :: pressed st'.
Proof.
  assert (Forall2 regular [30; 48; 46]%N [4; 5; 6]) as H1
    by (repeat constructor; lia).
  assert (NoDup [4; 5; 6]) as H2
    by (apply (bool_decide_unpack _); vm_compute; exact I).
  assert (regular 30 4) as H3 by (repeat constructor; lia).
  split; [exact H1|]. split; [exact H2|]. split; [exact H3|].
  apply (swap_remove_correct _ _ 0%nat 30%N 4 H1); simpl; try done; lia.
Defined.

(** C7: for a modifier code and any state, a second press in a row leaves the
    modifier byte (byte 0) as the first press left it, and so does a second
    release after a first one ([v] is the value of the event: not 0 for a
    press, 0 for a release); neither event touches bytes 1..7 or the key
    count. *)
Theorem modifier_idempotent (c : N) (v : Z) (hid : UsbHid) :
  ModifierTable c ≠ 0 → length (report hid) = 8%nat →
  ∃ once twice,
    updateReport (KeyEvent c v) hid = Ok (once, [])
    ∧ updateReport (KeyEvent c v) once = Ok (twice, [])
    ∧ report twice !! 0%nat = report once !! 0%nat
    ∧ drop 1 (report once) = drop 1 (report hid)
    ∧ keys once = keys hid
    ∧ drop 1 (report twice) = drop 1 (report hid)
    ∧ keys twice = keys hid.
Proof.
  intros Hm Hlen. destruct hid as [[|m rest] k]; [done|].
  eexists _, _. split; [by apply updateReport_modifier|].
  split; [by apply updateReport_modifier|]. cbn [report keys].
  split; [|done]. simpl. f_equal. case_decide.
  - by rewrite <- Z.lor_assoc, Z.lor_diag.
  - by rewrite Z.ldiff_ldiff_l, Z.lor_diag.
Qed.

Lemma modifier_idempotent_witness :
  ModifierTable evdev.KeyLeftCtrl ≠ 0
  ∧ length (report zeroed) = 8%nat
  ∧ ∃ once twice,
      updateReport (Down evdev.KeyLeftCtrl) zeroed = Ok (once, [])
      ∧ updateReport (Down evdev.KeyLeftCtrl) once = Ok (twice, [])
      ∧ report twice !! 0%nat = report once !! 0%nat
      ∧ drop 1 (report once) = drop 1 (report zeroed)
      ∧ keys once = keys zeroed
      ∧ drop 1 (report twice) = drop 1 (report zeroed)
      ∧ keys twice = keys zeroed.
Proof.
  assert (ModifierTable evdev.KeyLeftCtrl ≠ 0) as H1 by (vm_compute; lia).
  split; [exact H1|]. split; [reflexivity|].
  exact (modifier_idempotent evdev.KeyLeftCtrl 1 zeroed H1 eq_refl).
Defined.

(** C8: every state that a sequence of [updateReport] calls reaches from the
    zeroed state satisfies the invariant: the report has 8 bytes, the key
    count is between 0 and 6 and is the number of non-zero bytes among bytes
    2..7, every non-zero byte among them lies in a slot below [2+keys], and
    byte 1 is 0. *)
Theorem report_invariant (hid : UsbHid) : reachable hid → ReportInv hid.
Proof. intros Hreach. by apply shaped_inv, shaped_reachable. Qed.

Lemma report_invariant_witness :
  reachable (mkUsbHid [0; 0; 4; 0; 0; 0; 0; 0] 1)
  ∧ ReportInv (mkUsbHid [0; 0; 4; 0; 0; 0; 0; 0] 1).
Proof.
  assert (reachable (mkUsbHid [0; 0; 4; 0; 0; 0; 0; 0] 1)) as H1.
  { apply (reach_step zeroed (Down evdev.KeyA) _ []); [constructor|].
    reflexivity. }
  split; [exact H1|]. exact (report_invariant _ H1).
Defined.

(** C9: for an event that [updateReport] has applied, the worker writes the
    8 bytes of the new report once; when the device accepts fewer than 8
    bytes the worker reports the failure and returns (closing the file)
    without a second write, a flush, or a look at the rest of the inbox; when
    it accepts all 8, the worker flushes and only then takes the next
    message. *)
Theorem short_write_is_fatal (hid hid' : UsbHid) (ev : Event) (out : list io)
    (inbox : list msg) (accepted : nat → Z) (k : nat) :
  length (report hid) = 8%nat →
  updateReport ev hid = Ok (hid', out) →
  length (report hid') = 8%nat
  ∧ (accepted k < 8 →
     eventWriter hid (RecvEv ev :: inbox) accepted k
     = (out ++ [Write (report hid');
                Printed ("ERROR: Write failed" +:+ newline);
                Close],
        hid', Returned))
  ∧ (accepted k = 8 →
     eventWriter hid (RecvEv ev :: inbox) accepted k
     = let '(t, h, e) := eventWriter hid' inbox accepted (S k) in
       (out ++ Write (report hid') :: Sync :: t, h, e)).
Proof.
  intros Hlen Hstep.
  pose proof (updateReport_length _ _ _ _ Hstep) as Hlen'.
  rewrite Hlen in Hlen'. split; [done|]. split; intros Hn.
  - apply eventWriter_short; [done|]. rewrite Hlen'. lia.
  - apply eventWriter_accept; [done|]. rewrite Hlen'. lia.
Qed.

Lemma short_write_is_fatal_witness :
  length (report zeroed) = 8%nat
  ∧ updateReport (Down evdev.KeyA) zeroed
    = Ok (mkUsbHid [0; 0; 4; 0; 0; 0; 0; 0] 1, [])
  ∧ eventWriter zeroed [RecvEv (Down evdev.KeyA); RecvEv (Up evdev.KeyA)]
      (λ _, 5) 0
    = ([Write [0; 0; 4; 0; 0; 0; 0; 0];
        Printed ("ERROR: Write failed" +:+ newline);
        Close],
       mkUsbHid [0; 0; 4; 0; 0; 0; 0; 0] 1, Returned).
Proof.
  split; [reflexivity|]. split; [reflexivity|].
  apply (short_write_is_fatal zeroed _ (Down evdev.KeyA) []
           [RecvEv (Up evdev.KeyA)] (λ _, 5) 0 eq_refl eq_refl).
  lia.
Defined.

(** C10: an event whose type is not [EvKeys] leaves the report and the key
    count as they are and prints nothing; the worker nevertheless writes the
    unchanged 8-byte report, flushes, and goes on with the next message, as
    it does for key events. *)
Theorem other_event_still_written (ev : Event) (hid : UsbHid)
    (inbox : list msg) (accepted : nat → Z) (k : nat) :
  Type_ ev ≠ evdev.EvKeys → length (report hid) = 8%nat →
  updateReport ev hid = Ok (hid, [])
  ∧ (accepted k = 8 →
     eventWriter hid (RecvEv ev :: inbox) accepted k
     = let '(t, h, e) := eventWriter hid inbox accepted (S k) in
       (Write (report hid) :: Sync :: t, h, e)).
Proof.
  intros Hty Hlen.
  pose proof (updateReport_other ev hid Hty) as Hstep.
  split; [done|]. intros Hn.
  rewrite (eventWriter_accept _ _ _ _ _ _ _ Hstep); [done|].
  rewrite Hlen. lia.
Qed.

Lemma other_event_still_written_witness :
  Type_ (mkEvent 0 0 0) ≠ evdev.EvKeys
  ∧ length (report zeroed) = 8%nat
  ∧ updateReport (mkEvent 0 0 0) zeroed = Ok (zeroed, [])
  ∧ eventWriter zeroed [RecvEv (mkEvent 0 0 0)] (λ _, 8) 0
    = ([Write [0; 0; 0; 0; 0; 0; 0; 0]; Sync], zeroed, Waiting).
Proof.
  assert (Type_ (mkEvent 0 0 0) ≠ evdev.EvKeys) as H1
    by (intros H; discriminate H).
  split; [exact H1|]. split; [reflexivity|].
  destruct (other_event_still_written (mkEvent 0 0 0) zeroed [] (λ _, 8) 0
              H1 eq_refl) as [H2 H3].
  split; [exact H2|]. exact (H3 eq_refl).
Defined.

(** * Further properties of the report state *)

(** ** The tables *)

(** Every entry of [mapping] and every value of [kb_mod] is a byte. *)
Lemma mapping_bytes : Forall (λ b, 0 ≤ b < 256) mapping.
Proof. apply (bool_decide_unpack _). vm_compute. exact I. Qed.

(** The values of [kb_mod] are the eight single-bit masks, and [mapping]
    sends each modifier code to the usage ID 224 plus the number of its
    bit. *)
Lemma ModifierTable_bit (c : N) :
  ModifierTable c ≠ 0 →
  ∃ i, (i < 8)%nat ∧ ModifierTable c = 2 ^ Z.of_nat i
       ∧ ScancodeTable c = Ok (224 + Z.of_nat i).
Proof.
  unfold ModifierTable, map_get. intros Hc.
  destruct (kb_mod !! c) as [b|] eqn:Hb; [|done]. clear Hc.
  apply elem_of_list_to_map_2 in Hb.
  repeat (apply elem_of_cons in Hb as [[= -> ->]|Hb]);
    [exists 0%nat|exists 4%nat|exists 1%nat|exists 5%nat
    |exists 2%nat|exists 6%nat|exists 3%nat|exists 7%nat
    |by apply elem_of_nil in Hb];
    (split; [lia|by split]).
Qed.

(** ** The rollover machine *)

Section rollover.
Implicit Types (c : N) (u v m r : Z) (us : list Z) (hid : UsbHid).

Lemma ScancodeTable_byte c u : ScancodeTable c = Ok u → 0 ≤ u < 256.
Proof.
  unfold ScancodeTable, index. case_decide; [|done].
  destruct (mapping !! _) as [x|] eqn:Hx; [|done]. intros [= <-].
  apply (proj1 (Forall_forall _ _) mapping_bytes).
  apply list_elem_of_lookup. eauto.
Qed.

Lemma ModifierTable_byte c : 0 ≤ ModifierTable c < 256.
Proof.
  destruct (decide (ModifierTable c = 0)) as [->|Hc]; [lia|].
  destruct (ModifierTable_bit c Hc) as (i & Hi & -> & _).
  split; [lia|]. change 256 with (2 ^ 8). apply Z.pow_lt_mono_r; lia.
Qed.

Lemma lor_byte a b : 0 ≤ a < 256 → 0 ≤ b < 256 → 0 ≤ Z.lor a b < 256.
Proof.
  intros Ha Hb. change 256 with (2 ^ 8) in *.
  assert (0 ≤ Z.lor a b) by (apply Z.lor_nonneg; lia).
  apply Z.bounded_iff_bits_nonneg'; [lia..|]. intros l Hl.
  rewrite Z.lor_spec.
  rewrite (proj1 (Z.bounded_iff_bits_nonneg' 8 a ltac:(lia) ltac:(lia)) Ha l Hl).
  by rewrite (proj1 (Z.bounded_iff_bits_nonneg' 8 b ltac:(lia) ltac:(lia)) Hb l Hl).
Qed.

Lemma ldiff_byte a b : 0 ≤ a < 256 → 0 ≤ b → 0 ≤ Z.ldiff a b < 256.
Proof.
  intros Ha Hb. change 256 with (2 ^ 8) in *.
  assert (0 ≤ Z.ldiff a b) by (apply Z.ldiff_nonneg; lia).
  apply Z.bounded_iff_bits_nonneg'; [lia..|]. intros l Hl.
  rewrite Z.ldiff_spec.
  by rewrite (proj1 (Z.bounded_iff_bits_nonneg' 8 a ltac:(lia) ltac:(lia)) Ha l Hl).
Qed.

Lemma key_step_length u v us :
  (length us ≤ 6)%nat → (length (key_step u v us) ≤ 6)%nat.
Proof.
  intros Hn. unfold key_step.
  repeat case_decide;
    rewrite ?swap_remove_length, ?length_app, ?length_insert; simpl; lia.
Qed.

Lemma key_step_Forall (P : Z → Prop) u v us :
  P u → Forall P us → Forall P (key_step u v us).
Proof.
  intros Hu Hus. unfold key_step. repeat case_decide; try done.
  - exact (swap_remove_Forall _ _ us Hus).
  - apply Forall_app. split; [done|]. by constructor.
  - by apply Forall_insert.
Qed.

Lemma NoDup_insert_fresh us (i : nat) u :
  NoDup us → u ∉ us → NoDup (<[i := u]> us).
Proof.
  revert i. induction us as [|x us IH]; intros i Hnd Hu; [done|].
  apply NoDup_cons in Hnd as [Hx Hnd].
  apply not_elem_of_cons in Hu as [Hux Hu].
  destruct i as [|i]; simpl; apply NoDup_cons.
  - done.
  - split; [|by apply IH]. intros Hin.
    apply list_elem_of_lookup in Hin as [j Hj].
    apply list_lookup_insert_Some in Hj as [(_ & -> & _)|[_ Hj]]; [done|].
    apply Hx. apply list_elem_of_lookup. eauto.
Qed.

Lemma key_step_NoDup u v us : NoDup us → NoDup (key_step u v us).
Proof.
  intros Hnd. unfold key_step. repeat case_decide; try done.
  - destruct (find_key_spec u us 0) as [[_ Habs]|(p & Hfind & Hp)];
      [lia|done|].
    rewrite Hfind. replace (Z.to_nat (0 + Z.of_nat p)) with p by lia.
    rewrite (swap_remove_perm p us u Hp) in Hnd.
    by apply NoDup_cons in Hnd as [_ ?].
  - apply NoDup_app. split; [done|]. split; [|apply NoDup_singleton].
    intros x Hx Hxu. apply list_elem_of_singleton in Hxu as ->. done.
  - by apply NoDup_insert_fresh.
Qed.

(** [updateReport] on an event of a regular key is [key_step] on the active
    usage IDs; the modifier byte and the reserved byte stay. *)
Lemma updateReport_key c u v m r us :
  regular c u → (length us ≤ 6)%nat →
  updateReport (KeyEvent c v) (mkUsbHid (layout m r us) (Z.of_nat (length us)))
  = Ok (mkUsbHid (layout m r (key_step u v us))
                 (Z.of_nat (length (key_step u v us))), []).
Proof.
  intros Hreg Hn. unfold key_step. destruct (decide (u ∈ us)) as [Hin|Hout].
  - destruct (find_key_spec u us 0) as [[_ Habs]|(p & Hfind & Hp)];
      [lia|done|].
    destruct (decide (v = 0)) as [->|Hv].
    + change (KeyEvent c 0) with (Up c). rewrite Hfind.
      replace (Z.to_nat (0 + Z.of_nat p)) with p by lia.
      rewrite (updateReport_release_at c u _ _ _ p) by (done || lia).
      rewrite swap_remove_length. pose proof (lookup_lt_Some _ _ _ Hp).
      do 3 f_equal. lia.
    + by apply (updateReport_held c u).
  - case_decide.
    + rewrite (updateReport_append c u) by done. rewrite length_app. simpl.
      do 3 f_equal. lia.
    + rewrite (updateReport_overflow c u) by (done || lia).
      by rewrite length_insert.
Qed.

Lemma tidy_zeroed : tidy zeroed.
Proof.
  exists 0, []. split; [apply zeroed_layout|]. split; [simpl; lia|].
  split; [done|]. split; [constructor|lia].
Qed.

Lemma tidy_step ev hid hid' out :
  tidy hid → updateReport ev hid = Ok (hid', out) → tidy hid'.
Proof.
  intros (m & us & -> & Hn & Hb & Hnd & Hm) Hstep. destruct ev as [t c v].
  destruct (decide (t = evdev.EvKeys)) as [->|Ht].
  2:{ rewrite updateReport_other in Hstep by done.
      injection Hstep as <- <-. by exists m, us. }
  change (mkEvent evdev.EvKeys c v) with (KeyEvent c v) in Hstep.
  destruct (decide (ModifierTable c = 0)) as [Hc|Hc].
  2:{ unfold layout in Hstep. rewrite updateReport_modifier in Hstep by done.
      injection Hstep as <- <-. eexists _, us. split; [reflexivity|].
      do 3 (split; [done|]). pose proof (ModifierTable_byte c).
      case_decide; [by apply lor_byte|apply ldiff_byte; lia]. }
  destruct (ScancodeTable c) as [u|why] eqn:Hu.
  2:{ by rewrite (updateReport_panic c v _ why) in Hstep. }
  destruct (decide (u = 0)) as [->|Hu0].
  { rewrite updateReport_unmapped in Hstep by done.
    injection Hstep as <- <-. by exists m, us. }
  rewrite (updateReport_key c u) in Hstep by done.
  injection Hstep as <- <-. exists m, (key_step u v us).
  split; [done|]. split; [by apply key_step_length|].
  pose proof (ScancodeTable_byte c u Hu).
  split; [apply key_step_Forall; [lia|done]|].
  split; [by apply key_step_NoDup|done].
Qed.

Lemma tidy_reachable hid : reachable hid → tidy hid.
Proof.
  induction 1 as [|hid ev hid' out _ IH Hstep]; [apply tidy_zeroed|].
  by eapply tidy_step.
Qed.

Lemma tidy_nonzero us :
  Forall (λ b, 0 < b < 256) us → Forall (λ b, b ≠ 0) us.
Proof.
  intros Hus. eapply Forall_impl; [exact Hus|]. intros b Hb. simpl in *. lia.
Qed.
End rollover.

(** ** Tables: further facts *)

Lemma mapping_distinct :
  Forall (λ i, Forall (λ j, mapping !! i = mapping !! j →
                            mapping !! i = Some 0 ∨ i = j) (seq 0 194))
    (seq 0 194).
Proof. apply (bool_decide_unpack _). vm_compute. exact I. Qed.

Lemma ScancodeTable_lookup (c : N) (u : Z) :
  ScancodeTable c = Ok u → mapping !! N.to_nat c = Some u ∧ (c < 194)%N.
Proof.
  unfold ScancodeTable, index. rewrite mapping_length.
  case_decide; [|done].
  replace (Z.to_nat (Z.of_N c)) with (N.to_nat c) by lia.
  destruct (mapping !! _) as [x|]; [|done]. intros [= <-]. split; [done|lia].
Qed.

(** X1: two different codes never share a non-zero usage ID: on the codes it
    maps, [mapping] is injective. *)
Theorem ScancodeTable_injective (c1 c2 : N) (u : Z) :
  ScancodeTable c1 = Ok u → ScancodeTable c2 = Ok u → u ≠ 0 → c1 = c2.
Proof.
  intros [H1 Hc1]%ScancodeTable_lookup [H2 Hc2]%ScancodeTable_lookup Hu.
  pose proof (proj1 (Forall_forall _ _) mapping_distinct (N.to_nat c1)) as Hd.
  rewrite <- (N2Nat.id c1), <- (N2Nat.id c2). f_equal.
  assert (N.to_nat c1 ∈ seq 0 194) as Hi by (apply elem_of_seq; lia).
  assert (N.to_nat c2 ∈ seq 0 194) as Hj by (apply elem_of_seq; lia).
  specialize (Hd Hi). simpl in Hd.
  destruct (proj1 (Forall_forall _ _) Hd _ Hj) as [H0|Heq]; [congruence| |done].
  rewrite H1 in H0. by injection H0.
Qed.

Lemma ScancodeTable_injective_witness :
  ScancodeTable 30 = Ok 4 ∧ ScancodeTable 30 = Ok 4 ∧ 4 ≠ 0 ∧ 30%N = 30%N.
Proof.
  assert (4 ≠ 0) as H3 by lia.
  split; [reflexivity|]. split; [reflexivity|]. split; [exact H3|].
  exact (ScancodeTable_injective 30 30 4 eq_refl eq_refl H3).
Defined.

(** X2: every modifier code owns one bit of the modifier byte, which no
    other modifier code has, and [mapping] sends the code to the usage ID
    224 plus the number of that bit, the usage of that modifier key. *)
Theorem modifier_codes_own_bits (c : N) :
  ModifierTable c ≠ 0 →
  (∃ i, (i < 8)%nat ∧ ModifierTable c = 2 ^ Z.of_nat i
        ∧ ScancodeTable c = Ok (224 + Z.of_nat i))
  ∧ ∀ c', ModifierTable c' = ModifierTable c → c' = c.
Proof.
  intros Hc. split; [by apply ModifierTable_bit|].
  intros c' Heq. unfold ModifierTable, map_get in *.
  destruct (kb_mod !! c) as [b|] eqn:Hb; [|done].
  destruct (kb_mod !! c') as [b'|] eqn:Hb'; [|simpl in *; congruence].
  simpl in *. subst b'. clear Hc.
  apply elem_of_list_to_map_2 in Hb, Hb'.
  repeat (apply elem_of_cons in Hb as [[= -> ->]|Hb]);
    try (by apply elem_of_nil in Hb);
    repeat (apply elem_of_cons in Hb' as [[= ->]|Hb']);
    done || (by apply elem_of_nil in Hb').
Qed.

Lemma modifier_codes_own_bits_witness :
  ModifierTable evdev.KeyLeftShift ≠ 0
  ∧ (∃ i, (i < 8)%nat ∧ ModifierTable evdev.KeyLeftShift = 2 ^ Z.of_nat i
          ∧ ScancodeTable evdev.KeyLeftShift = Ok (224 + Z.of_nat i))
  ∧ ∀ c', ModifierTable c' = ModifierTable evdev.KeyLeftShift →
          c' = evdev.KeyLeftShift.
Proof.
  assert (ModifierTable evdev.KeyLeftShift ≠ 0) as H1 by (vm_compute; lia).
  split; [exact H1|]. exact (modifier_codes_own_bits evdev.KeyLeftShift H1).
Defined.

(** ** The report state: further facts *)

Section report_state.
Implicit Types (c : N) (u v m r : Z) (us : list Z) (hid : UsbHid).

Lemma updateReport_release_last c u m r us :
  regular c u → (length us < 6)%nat → u ∉ us →
  updateReport (Up c) (mkUsbHid (layout m r (us ++ [u]))
                                (Z.of_nat (length us) + 1))
  = Ok (mkUsbHid (layout m r us) (Z.of_nat (length us)), []).
Proof.
  intros Hreg Hn Hu.
  replace (Z.of_nat (length us) + 1) with (Z.of_nat (length (us ++ [u])))
    by (rewrite length_app; simpl; lia).
  rewrite (updateReport_release_at c u _ _ _ (length us)).
  - rewrite swap_remove_last. do 3 f_equal. rewrite length_app. simpl. lia.
  - done.
  - rewrite length_app. simpl. lia.
  - by rewrite list_lookup_middle.
  - rewrite find_key_first by done. lia.
Qed.

Lemma modifiers_layout m r us k : modifiers (mkUsbHid (layout m r us) k) = m.
Proof. reflexivity. Qed.
End report_state.

(** X3: in a reachable state, [updateReport] panics on exactly one kind of
    event: a key event of a code that is not a modifier and lies beyond the
    194 entries of [mapping].  Every other event returns; in particular no
    access to the report array is ever out of bounds. *)
Theorem updateReport_returns_iff (ev : Event) (hid : UsbHid) :
  reachable hid →
  (∃ r, updateReport ev hid = Ok r)
  ↔ ¬ (Type_ ev = evdev.EvKeys ∧ ModifierTable (Code ev) = 0
       ∧ (194 ≤ Code ev)%N).
Proof.
  intros (m & us & -> & Hn & _)%shaped_reachable. destruct ev as [t c v].
  simpl. destruct (decide (t = evdev.EvKeys)) as [->|Ht].
  2:{ rewrite updateReport_other by done. split; [|by eauto].
      by intros _ (? & _). }
  change (mkEvent evdev.EvKeys c v) with (KeyEvent c v).
  destruct (decide (ModifierTable c = 0)) as [Hc|Hc].
  2:{ unfold layout. rewrite updateReport_modifier by done.
      split; [|by eauto]. by intros _ (_ & ? & _). }
  destruct (decide (c < 194)%N) as [Hlt|Hge].
  - split; [intros _ (_ & _ & ?); lia|]. intros _.
    destruct (proj2 (ScancodeTable_defined c) Hlt) as [u Hu].
    destruct (decide (u = 0)) as [->|Hu0].
    + rewrite updateReport_unmapped by done. eauto.
    + rewrite (updateReport_key c u) by done. eauto.
  - rewrite (updateReport_panic c v _ "index out of range");
      [|done|apply ScancodeTable_panics; lia].
    split; [by intros [? ?]|]. intros H. exfalso. apply H.
    repeat split; [done|lia].
Qed.

Lemma updateReport_returns_iff_witness :
  reachable zeroed
  ∧ ((∃ r, updateReport (Down 272) zeroed = Ok r)
     ↔ ¬ (Type_ (Down 272) = evdev.EvKeys ∧ ModifierTable (Code (Down 272)) = 0
          ∧ (194 ≤ Code (Down 272))%N)).
Proof.
  split; [exact reach_zeroed|].
  exact (updateReport_returns_iff (Down 272) zeroed reach_zeroed).
Defined.

(** X4: in a reachable state the active slots hold pairwise distinct usage
    IDs, they are exactly the non-zero bytes among bytes 2..7, and every byte
    of the report is between 0 and 255. *)
Theorem reachable_state_is_tidy (hid : UsbHid) :
  reachable hid →
  NoDup (active hid)
  ∧ active hid = pressed hid
  ∧ Forall (λ b, 0 ≤ b < 256) (report hid).
Proof.
  intros (m & us & -> & Hn & Hb & Hnd & Hm)%tidy_reachable.
  rewrite active_layout by done.
  rewrite pressed_layout by (by apply tidy_nonzero).
  split; [done|]. split; [done|]. unfold layout. cbn [report].
  repeat apply Forall_cons_2; [lia|lia|]. apply Forall_app. split.
  - eapply Forall_impl; [exact Hb|]. intros b ?. simpl in *. lia.
  - apply Forall_replicate. lia.
Qed.

Lemma reachable_state_is_tidy_witness :
  reachable zeroed
  ∧ NoDup (active zeroed)
  ∧ active zeroed = pressed zeroed
  ∧ Forall (λ b, 0 ≤ b < 256) (report zeroed).
Proof.
  split; [exact reach_zeroed|].
  exact (reachable_state_is_tidy zeroed reach_zeroed).
Defined.

(** X5: a press and the release of the same regular key cancel: in a
    reachable state with a free slot where the key is not active, the two
    events give back the state they started from. *)
Theorem press_release_restores (c : N) (u v : Z) (hid : UsbHid) :
  reachable hid → regular c u → keys hid < 6 → u ∉ active hid → v ≠ 0 →
  run [KeyEvent c v; Up c] hid = Ok hid.
Proof.
  intros (m & us & -> & Hn & _)%shaped_reachable Hreg Hk Hu Hv.
  cbn [keys] in Hk. rewrite active_layout in Hu by done.
  rewrite run_cons, (updateReport_append c u) by (done || lia).
  ok_step. cbn [fst]. rewrite run_cons.
  rewrite (updateReport_release_last c u) by (done || lia).
  reflexivity.
Qed.

Lemma press_release_restores_witness :
  reachable zeroed ∧ regular 30 4 ∧ keys zeroed < 6 ∧ (4 ∉ active zeroed)
  ∧ 1 ≠ 0
  ∧ run [KeyEvent 30 1; Up 30] zeroed = Ok zeroed.
Proof.
  assert (regular 30 4) as H2 by (repeat constructor; lia).
  assert (keys zeroed < 6) as H3 by (simpl; lia).
  assert (4 ∉ active zeroed) as H4 by apply not_elem_of_nil.
  assert (1 ≠ 0) as H5 by lia.
  split; [exact reach_zeroed|]. split; [exact H2|]. split; [exact H3|].
  split; [exact H4|]. split; [exact H5|].
  exact (press_release_restores 30 4 1 zeroed reach_zeroed H2 H3 H4 H5).
Defined.

(** X6: a press of a regular key that is already active changes nothing and
    prints nothing, so a key that repeats is never reported twice. *)
Theorem repeated_press_is_ignored (c : N) (u v : Z) (hid : UsbHid) :
  reachable hid → regular c u → u ∈ active hid → v ≠ 0 →
  updateReport (KeyEvent c v) hid = Ok (hid, []).
Proof.
  intros (m & us & -> & Hn & _)%shaped_reachable Hreg Hu Hv.
  rewrite active_layout in Hu by done. by apply (updateReport_held c u).
Qed.

Lemma repeated_press_is_ignored_witness :
  reachable (mkUsbHid [0; 0; 4; 0; 0; 0; 0; 0] 1)
  ∧ regular 30 4
  ∧ (4 ∈ active (mkUsbHid [0; 0; 4; 0; 0; 0; 0; 0] 1))
  ∧ 2 ≠ 0
  ∧ updateReport (KeyEvent 30 2) (mkUsbHid [0; 0; 4; 0; 0; 0; 0; 0] 1)
    = Ok (mkUsbHid [0; 0; 4; 0; 0; 0; 0; 0] 1, []).
Proof.
  assert (reachable (mkUsbHid [0; 0; 4; 0; 0; 0; 0; 0] 1)) as H1.
  { apply (reach_step zeroed (Down evdev.KeyA) _ []); [constructor|].
    reflexivity. }
  assert (regular 30 4) as H2 by (repeat constructor; lia).
  assert (4 ∈ active (mkUsbHid [0; 0; 4; 0; 0; 0; 0; 0] 1)) as H3
    by (apply list_elem_of_here).
  assert (2 ≠ 0) as H4 by lia.
  split; [exact H1|]. split; [exact H2|]. split; [exact H3|].
  split; [exact H4|].
  exact (repeated_press_is_ignored 30 4 2 _ H1 H2 H3 H4).
Defined.

Section modifier_byte.
Implicit Types (c : N) (u v m r : Z) (us : list Z) (hid : UsbHid).

Lemma updateReport_modifier_layout c v m r us k :
  ModifierTable c ≠ 0 →
  updateReport (KeyEvent c v) (mkUsbHid (layout m r us) k)
  = Ok (mkUsbHid (layout (if decide (v ≠ 0) then Z.lor m (ModifierTable c)
                          else Z.ldiff m (ModifierTable c)) r us) k, []).
Proof. intros Hc. unfold layout. by rewrite updateReport_modifier. Qed.

Lemma pow2_inj (i j : Z) : 0 ≤ i → 0 ≤ j → 2 ^ i = 2 ^ j → i = j.
Proof. intros Hi Hj Heq. apply (Z.pow_inj_r 2); lia. Qed.

(** One event moves bit [i] of the modifier byte as [mod_bit] says. *)
Lemma updateReport_mod_bit ev hid hid' out (i : Z) :
  shaped hid → 0 ≤ i → updateReport ev hid = Ok (hid', out) →
  Z.testbit (modifiers hid') i = mod_bit i (Z.testbit (modifiers hid) i) ev.
Proof.
  intros (m & us & -> & Hn & _) Hi Hstep. destruct ev as [t c v].
  unfold mod_bit. cbn [Type_ Code Value]. rewrite modifiers_layout.
  destruct (decide (t = evdev.EvKeys)) as [->|Ht].
  2:{ rewrite updateReport_other in Hstep by done. injection Hstep as <- <-.
      by rewrite decide_False by (by intros [? _]). }
  change (mkEvent evdev.EvKeys c v) with (KeyEvent c v) in Hstep.
  assert (2 ^ i ≠ 0) as Hpow by (apply Z.pow_nonzero; lia).
  destruct (decide (ModifierTable c = 0)) as [Hc|Hc].
  - rewrite decide_False by (intros [_ ?]; congruence).
    destruct (ScancodeTable c) as [u|why] eqn:Hu.
    2:{ by rewrite (updateReport_panic c v _ why) in Hstep. }
    destruct (decide (u = 0)) as [->|Hu0].
    + rewrite updateReport_unmapped in Hstep by done.
      by injection Hstep as <- <-.
    + rewrite (updateReport_key c u) in Hstep by done.
      by injection Hstep as <- <-.
  - rewrite updateReport_modifier_layout in Hstep by done.
    injection Hstep as <- <-. rewrite modifiers_layout.
    destruct (ModifierTable_bit c Hc) as (j & _ & Hj & _). rewrite Hj.
    destruct (decide (Z.of_nat j = i)) as [<-|Hne].
    + destruct (decide (v ≠ 0)) as [Hv|Hv].
      * rewrite decide_True by (by split).
        rewrite Z.lor_spec, Z.pow2_bits_true by lia.
        rewrite bool_decide_eq_true_2 by done. apply orb_true_r.
      * rewrite decide_True by (by split).
        rewrite Z.ldiff_spec, Z.pow2_bits_true by lia.
        rewrite bool_decide_eq_false_2 by done. apply andb_false_r.
    + assert (¬ (evdev.EvKeys = evdev.EvKeys
                 ∧ 2 ^ Z.of_nat j = 2 ^ i)) as Hno.
      { intros [_ Heq]. apply Hne. apply pow2_inj; [lia..|done]. }
      destruct (decide (v ≠ 0)) as [Hv|Hv]; rewrite decide_False by done.
      * rewrite Z.lor_spec, Z.pow2_bits_false by done. apply orb_false_r.
      * rewrite Z.ldiff_spec, Z.pow2_bits_false by done. apply andb_true_r.
Qed.
End modifier_byte.

(** X7: the modifier byte tracks the modifiers that are held.  After any
    sequence of events that [updateReport] applied, bit [i] of byte 0 is what
    the last key event of the modifier code owning that bit made it (set by a
    press, cleared by a release), and what it was before when there was no
    such event; events of regular keys, of other modifiers and of other
    types leave the bit alone. *)
Theorem modifier_byte_tracks_held (evs : list Event) (hid hid' : UsbHid)
    (i : Z) :
  reachable hid → 0 ≤ i → run evs hid = Ok hid' →
  Z.testbit (modifiers hid') i
  = foldl (mod_bit i) (Z.testbit (modifiers hid) i) evs.
Proof.
  intros Hreach Hi. apply shaped_reachable in Hreach.
  revert hid Hreach. induction evs as [|ev evs IH]; intros hid Hsh Hrun.
  - by injection Hrun as ->.
  - rewrite run_cons in Hrun.
    destruct (updateReport ev hid) as [[h1 out]|] eqn:Hstep; [|done].
    rewrite bind_Ok in Hrun. cbn [fst] in Hrun. simpl foldl.
    rewrite <- (updateReport_mod_bit ev hid h1 out i) by done.
    apply IH; [by eapply shaped_step|done].
Qed.

Lemma modifier_byte_tracks_held_witness :
  reachable zeroed ∧ 0 ≤ 1
  ∧ run [Down evdev.KeyLeftShift; Down evdev.KeyA; Down evdev.KeyLeftCtrl;
         Up evdev.KeyLeftCtrl] zeroed
    = Ok (mkUsbHid [2; 0; 4; 0; 0; 0; 0; 0] 1)
  ∧ Z.testbit (modifiers (mkUsbHid [2; 0; 4; 0; 0; 0; 0; 0] 1)) 1
    = foldl (mod_bit 1) (Z.testbit (modifiers zeroed) 1)
        [Down evdev.KeyLeftShift; Down evdev.KeyA; Down evdev.KeyLeftCtrl;
         Up evdev.KeyLeftCtrl].
Proof.
  assert (0 ≤ 1) as H2 by lia.
  split; [exact reach_zeroed|]. split; [exact H2|]. split; [reflexivity|].
  exact (modifier_byte_tracks_held
           [Down evdev.KeyLeftShift; Down evdev.KeyA; Down evdev.KeyLeftCtrl;
            Up evdev.KeyLeftCtrl]
           zeroed (mkUsbHid [2; 0; 4; 0; 0; 0; 0; 0] 1) 1
           reach_zeroed H2 eq_refl).
Defined.

(** X8: an event of a modifier and an event of a key that is not a modifier
    commute: applied in either order to a reachable state they give the same
    result, the same panic included. *)
Theorem modifier_and_key_commute (cm c : N) (vm v : Z) (hid : UsbHid) :
  reachable hid → ModifierTable cm ≠ 0 → ModifierTable c = 0 →
  run [KeyEvent cm vm; KeyEvent c v] hid
  = run [KeyEvent c v; KeyEvent cm vm] hid.
Proof.
  intros (m & us & -> & Hn & _)%shaped_reachable Hcm Hc.
  rewrite !run_cons. rewrite updateReport_modifier_layout by done.
  ok_step. cbn [fst]. rewrite !run_cons.
  destruct (ScancodeTable c) as [u|why] eqn:Hu.
  2:{ by rewrite !(updateReport_panic c v _ why). }
  destruct (decide (u = 0)) as [->|Hu0].
  - rewrite !updateReport_unmapped by done. ok_step. ok_step. cbn [fst].
    rewrite run_cons. by rewrite updateReport_modifier_layout.
  - rewrite !(updateReport_key c u) by done. ok_step. ok_step. cbn [fst].
    rewrite run_cons. by rewrite updateReport_modifier_layout.
Qed.

Lemma modifier_and_key_commute_witness :
  reachable zeroed ∧ ModifierTable evdev.KeyLeftShift ≠ 0
  ∧ ModifierTable evdev.KeyA = 0
  ∧ run [KeyEvent evdev.KeyLeftShift 1; KeyEvent evdev.KeyA 1] zeroed
    = run [KeyEvent evdev.KeyA 1; KeyEvent evdev.KeyLeftShift 1] zeroed.
Proof.
  assert (ModifierTable evdev.KeyLeftShift ≠ 0) as H2 by (vm_compute; lia).
  split; [exact reach_zeroed|]. split; [exact H2|]. split; [reflexivity|].
  exact (modifier_and_key_commute evdev.KeyLeftShift evdev.KeyA 1 1 zeroed
           reach_zeroed H2 eq_refl).
Defined.

(** X9: an event whose code is not a modifier never touches the modifier
    byte or the reserved byte. *)
Theorem key_event_keeps_modifiers (ev : Event) (hid hid' : UsbHid)
    (out : list io) :
  reachable hid → ModifierTable (Code ev) = 0 →
  updateReport ev hid = Ok (hid', out) →
  take 2 (report hid') = take 2 (report hid).
Proof.
  intros (m & us & -> & Hn & _)%shaped_reachable Hc Hstep.
  destruct ev as [t c v]. cbn [Code] in Hc.
  destruct (decide (t = evdev.EvKeys)) as [->|Ht].
  2:{ rewrite updateReport_other in Hstep by done. by injection Hstep as <- <-. }
  change (mkEvent evdev.EvKeys c v) with (KeyEvent c v) in Hstep.
  destruct (ScancodeTable c) as [u|why] eqn:Hu.
  2:{ by rewrite (updateReport_panic c v _ why) in Hstep. }
  destruct (decide (u = 0)) as [->|Hu0].
  - rewrite updateReport_unmapped in Hstep by done.
    by injection Hstep as <- <-.
  - rewrite (updateReport_key c u) in Hstep by done.
    by injection Hstep as <- <-.
Qed.

Lemma key_event_keeps_modifiers_witness :
  reachable (mkUsbHid [2; 0; 0; 0; 0; 0; 0; 0] 0)
  ∧ ModifierTable (Code (Down evdev.KeyA)) = 0
  ∧ updateReport (Down evdev.KeyA) (mkUsbHid [2; 0; 0; 0; 0; 0; 0; 0] 0)
    = Ok (mkUsbHid [2; 0; 4; 0; 0; 0; 0; 0] 1, [])
  ∧ take 2 (report (mkUsbHid [2; 0; 4; 0; 0; 0; 0; 0] 1))
    = take 2 (report (mkUsbHid [2; 0; 0; 0; 0; 0; 0; 0] 0)).
Proof.
  assert (reachable (mkUsbHid [2; 0; 0; 0; 0; 0; 0; 0] 0)) as H1.
  { apply (reach_step zeroed (Down evdev.KeyLeftShift) _ []); [constructor|].
    reflexivity. }
  split; [exact H1|]. split; [reflexivity|]. split; [reflexivity|].
  exact (key_event_keeps_modifiers (Down evdev.KeyA) _ _ [] H1 eq_refl eq_refl).
Defined.

(** * Further properties of the worker loop *)

Section worker.
Implicit Types (hid : UsbHid) (inbox : list msg) (accepted : nat → Z).

Lemma device_app (t1 t2 : list io) : device (t1 ++ t2) = device t1 ++ device t2.
Proof.
  induction t1 as [|x t1 IH]; [done|]. destruct x; simpl; by rewrite ?IH.
Qed.

(** [updateReport] only ever prints. *)
Lemma updateReport_prints ev hid hid' out :
  updateReport ev hid = Ok (hid', out) →
  out = [] ∨ ∃ s, out = [Printed s].
Proof.
  unfold updateReport. intros H. returned H; injection H as <- <-; eauto.
Qed.

Lemma updateReport_device ev hid hid' out :
  updateReport ev hid = Ok (hid', out) → device out = [] ∧ Close ∉ out.
Proof.
  intros [->|[s ->]]%updateReport_prints; (split; [done|]).
  - apply not_elem_of_nil.
  - by intros [=]%list_elem_of_singleton.
Qed.
End worker.

(** X10: the worker applies and writes in the order of arrival.  With a
    device that accepts every report, the operations on the device are, for
    each event in turn, one write of the report as it is after that event and
    one flush, nothing else; the worker ends waiting for the next message in
    the state after the last event.  If an event makes [updateReport] panic,
    the events before it are written in the same way and the file is
    closed. *)
Theorem writer_reports_in_order (evs : list Event) (hid : UsbHid)
    (accepted : nat → Z) (k : nat) :
  length (report hid) = 8%nat → (∀ j, accepted j = 8) →
  ∃ t h e,
    eventWriter hid (RecvEv <$> evs) accepted k = (t, h, e)
    ∧ match run evs hid with
      | Ok hid' =>
          device t = (states evs hid ≫= λ s, [Write (report s); Sync])
          ∧ h = hid' ∧ e = Waiting
      | Panic why =>
          device t = (states evs hid ≫= λ s, [Write (report s); Sync])
                     ++ [Close]
          ∧ e = Crashed why
      end.
Proof.
  intros Hlen Hacc. revert hid k Hlen.
  induction evs as [|ev evs IH]; intros hid k Hlen.
  - by exists [], hid, Waiting.
  - rewrite fmap_cons, run_cons. simpl states.
    destruct (updateReport ev hid) as [[h1 out]|why] eqn:Hstep.
    + pose proof (updateReport_length _ _ _ _ Hstep) as Hlen1.
      rewrite Hlen in Hlen1.
      destruct (IH h1 (S k) Hlen1) as (t & h & e & Hrun & Hspec).
      rewrite (eventWriter_accept _ _ _ _ _ _ _ Hstep)
        by (rewrite Hacc, Hlen1; lia).
      rewrite Hrun. eexists _, h, e. split; [reflexivity|].
      rewrite bind_Ok. cbn [fst]. rewrite device_app.
      rewrite (proj1 (updateReport_device _ _ _ _ Hstep)). simpl device.
      rewrite bind_cons. simpl.
      destruct (run evs h1) as [hid'|why'].
      * destruct Hspec as (-> & -> & ->). done.
      * destruct Hspec as (-> & ->). done.
    + simpl. rewrite Hstep. by eexists _, _, _.
Qed.

Lemma writer_reports_in_order_witness :
  length (report zeroed) = 8%nat
  ∧ (∀ j : nat, (λ _, 8) j = 8)
  ∧ ∃ t h e,
      eventWriter zeroed (RecvEv <$> [Down evdev.KeyA; Up evdev.KeyA])
        (λ _, 8) 0 = (t, h, e)
      ∧ match run [Down evdev.KeyA; Up evdev.KeyA] zeroed with
        | Ok hid' =>
            device t
            = (states [Down evdev.KeyA; Up evdev.KeyA] zeroed
                 ≫= λ s, [Write (report s); Sync])
            ∧ h = hid' ∧ e = Waiting
        | Panic why =>
            device t
            = (states [Down evdev.KeyA; Up evdev.KeyA] zeroed
                 ≫= λ s, [Write (report s); Sync]) ++ [Close]
            ∧ e = Crashed why
        end.
Proof.
  assert (∀ j : nat, (λ _, 8) j = 8) as H2 by (intros j; reflexivity).
  split; [reflexivity|]. split; [exact H2|].
  exact (writer_reports_in_order [Down evdev.KeyA; Up evdev.KeyA] zeroed
           (λ _, 8) 0 eq_refl H2).
Defined.

(** X11: the file is closed exactly when the worker is over, and then as the
    last thing it does: whatever the inbox and the device, either the worker
    is still waiting and the trace holds no close, or it has returned or
    crashed and the trace ends with the one close it holds, so that nothing
    is written or flushed after it. *)
Theorem writer_closes_last (hid : UsbHid) (inbox : list msg)
    (accepted : nat → Z) (k : nat) :
  ∃ t h e,
    eventWriter hid inbox accepted k = (t, h, e)
    ∧ ((e = Waiting ∧ Close ∉ t)
       ∨ (e ≠ Waiting ∧ ∃ t', t = t' ++ [Close] ∧ Close ∉ t')).
Proof.
  revert hid k. induction inbox as [|[ev|] inbox IH]; intros hid k.
  - exists [], hid, Waiting. split; [done|]. left. split; [done|].
    apply not_elem_of_nil.
  - simpl. destruct (updateReport ev hid) as [[h1 out]|why] eqn:Hstep.
    + destruct (updateReport_device _ _ _ _ Hstep) as [_ Hout].
      case_decide.
      * eexists _, _, _. split; [reflexivity|]. right. split; [done|].
        exists (out ++ [Write (report h1);
                        Printed ("ERROR: Write failed" +:+ newline)]).
        split; [by rewrite <- app_assoc|]. rewrite elem_of_app.
        intros [?|Hin]; [done|].
        apply elem_of_cons in Hin as [[=]|Hin].
        by apply list_elem_of_singleton in Hin.
      * destruct (IH h1 (S k)) as (t & h & e & -> & Hcase).
        eexists _, _, _. split; [reflexivity|].
        destruct Hcase as [[-> Hno]|[He (t' & -> & Hno)]].
        -- left. split; [done|]. rewrite elem_of_app, !elem_of_cons.
           intros [?|[[=]|[[=]|?]]]; done.
        -- right. split; [done|].
           exists (out ++ Write (report h1) :: Sync :: t').
           split; [by rewrite <- app_assoc|].
           rewrite elem_of_app, !elem_of_cons.
           intros [?|[[=]|[[=]|?]]]; done.
    + eexists _, _, _. split; [reflexivity|]. right. split; [done|].
      exists []. split; [done|]. apply not_elem_of_nil.
  - simpl. eexists _, _, _. split; [reflexivity|]. right. split; [done|].
    exists []. split; [done|]. apply not_elem_of_nil.
Qed.

(** X12: everything the worker writes is the report of a reachable state:
    started in a reachable state, every write in the trace carries 8 bytes
    that satisfy the invariant of the report state, and the state the worker
    is left in is reachable too. *)
Theorem writer_writes_valid_reports (hid : UsbHid) (inbox : list msg)
    (accepted : nat → Z) (k : nat) :
  reachable hid →
  ∃ t h e,
    eventWriter hid inbox accepted k = (t, h, e)
    ∧ reachable h
    ∧ ∀ data, Write data ∈ t →
        ∃ st, reachable st ∧ ReportInv st ∧ data = report st.
Proof.
  revert hid k. induction inbox as [|[ev|] inbox IH]; intros hid k Hreach.
  - exists [], hid, Waiting. split; [done|]. split; [done|].
    by intros data Hin%elem_of_nil.
  - simpl. destruct (updateReport ev hid) as [[h1 out]|why] eqn:Hstep.
    + assert (reachable h1) as Hreach1 by (by eapply reach_step).
      assert (∀ data, Write data ∈ out → False) as Hout.
      { destruct (updateReport_prints _ _ _ _ Hstep) as [->|[s ->]];
          intros data Hin; [by apply elem_of_nil in Hin|].
        by apply list_elem_of_singleton in Hin. }
      assert (∃ st, reachable st ∧ ReportInv st ∧ report h1 = report st)
        as Hh1.
      { exists h1. split; [done|]. split; [|done].
        by apply shaped_inv, shaped_reachable. }
      case_decide.
      * eexists _, _, _. split; [reflexivity|]. split; [done|].
        intros data. rewrite elem_of_app, !elem_of_cons.
        intros [Hin|[[= ->]|[[=]|[[=]|Hin]]]];
          [by destruct (Hout data)|done|by apply elem_of_nil in Hin].
      * destruct (IH h1 (S k) Hreach1) as (t & h & e & -> & Hh & Ht).
        eexists _, _, _. split; [reflexivity|]. split; [done|].
        intros data. rewrite elem_of_app, !elem_of_cons.
        intros [Hin|[[= ->]|[[=]|Hin]]];
          [by destruct (Hout data)|done|by apply Ht].
    + eexists _, _, _. split; [reflexivity|]. split; [done|].
      by intros data [[=]|Hin%elem_of_nil]%elem_of_cons.
  - simpl. eexists _, _, _. split; [reflexivity|]. split; [done|].
    by intros data [[=]|Hin%elem_of_nil]%elem_of_cons.
Qed.

Lemma writer_writes_valid_reports_witness :
  reachable zeroed
  ∧ ∃ t h e,
      eventWriter zeroed [RecvEv (Down evdev.KeyA); RecvExit] (λ _, 8) 0
      = (t, h, e)
      ∧ reachable h
      ∧ ∀ data, Write data ∈ t →
          ∃ st, reachable st ∧ ReportInv st ∧ data = report st.
Proof.
  split; [exact reach_zeroed|].
  exact (writer_writes_valid_reports zeroed
           [RecvEv (Down evdev.KeyA); RecvExit] (λ _, 8) 0 reach_zeroed).
Defined.

(** * Further properties of the producer *)

Section producer.
Implicit Types (k : Z) (key : N).

(** Whatever the rune, the code that a producer table yields (0 when the rune
    has no entry) is the code of a regular key. *)
Lemma tcelltoev_regular k : ∃ u, regular (map_get 0%N tcelltoev k) u.
Proof.
  unfold map_get. destruct (tcelltoev !! k) as [key|] eqn:Hk; simpl;
    [|exists 3; apply regular_code_0].
  apply elem_of_list_to_map_2 in Hk.
  repeat (apply elem_of_cons in Hk as [[= -> ->]|Hk];
          [eexists; split; [reflexivity|split; [reflexivity|done]]|]).
  by apply elem_of_nil in Hk.
Qed.

Lemma tcellshiftokey_regular k key :
  tcellshiftokey !! k = Some key → ∃ u, regular key u.
Proof.
  intros Hk. apply elem_of_list_to_map_2 in Hk.
  repeat (apply elem_of_cons in Hk as [[= -> ->]|Hk];
          [eexists; split; [reflexivity|split; [reflexivity|done]]|]).
  by apply elem_of_nil in Hk.
Qed.

Lemma tcellctrltoev_regular k : ∃ u, regular (map_get 0%N tcellctrltoev k) u.
Proof.
  unfold map_get. destruct (tcellctrltoev !! k) as [key|] eqn:Hk; simpl;
    [|exists 3; apply regular_code_0].
  apply elem_of_list_to_map_2 in Hk. simpl in Hk.
  repeat (apply elem_of_cons in Hk as [[= -> ->]|Hk];
          [eexists; split; [reflexivity|split; [reflexivity|done]]|]).
  by apply elem_of_nil in Hk.
Qed.

(** The two shapes of the events of one key. *)
Lemma keystroke_shape (ctrl : bool) k :
  ∃ key u, regular key u
    ∧ (keystroke ctrl k = [Down key; Up key]
       ∨ ∃ m, (m = evdev.KeyLeftCtrl ∨ m = evdev.KeyLeftShift)
              ∧ keystroke ctrl k = [Down m; Down key; Up key; Up m]).
Proof.
  unfold keystroke. destruct ctrl.
  - destruct (tcellctrltoev_regular k) as [u Hu].
    eexists _, u. split; [exact Hu|]. right. eauto.
  - destruct (tcellshiftokey !! k) as [key|] eqn:Hk.
    + destruct (tcellshiftokey_regular k key Hk) as [u Hu].
      exists key, u. split; [done|]. right. eauto.
    + case_decide.
      * destruct (tcelltoev_regular (k + (rune "a" - rune "A"))) as [u Hu].
        eexists _, u. split; [exact Hu|]. right. eauto.
      * destruct (tcelltoev_regular k) as [u Hu].
        eexists _, u. split; [exact Hu|]. by left.
Qed.
End producer.

Section producer_runs.
Implicit Types (k : Z) (key m : N) (u b : Z).

Lemma states_cons_Ok ev evs hid hid' out :
  updateReport ev hid = Ok (hid', out) →
  states (ev :: evs) hid = hid' :: states evs hid'.
Proof. intros Hstep. simpl. by rewrite Hstep. Qed.

Lemma run_app evs1 evs2 hid :
  run (evs1 ++ evs2) hid = (h ← run evs1 hid; run evs2 h).
Proof.
  revert hid. induction evs1 as [|ev evs1 IH]; intros hid; [done|].
  rewrite <- app_comm_cons, !run_cons.
  destruct (updateReport ev hid) as [[h1 out]|why]; [|done].
  rewrite !bind_Ok. apply IH.
Qed.

(** A sequence with a state after every event did not panic, and ends in the
    last of these states. *)
Lemma run_states_last evs hid :
  length (states evs hid) = length evs →
  run evs hid = Ok (default hid (last (states evs hid))).
Proof.
  revert hid. induction evs as [|ev evs IH]; intros hid Hlen; [done|].
  rewrite run_cons. simpl in Hlen. simpl states.
  destruct (updateReport ev hid) as [[h1 out]|why]; [|done].
  rewrite bind_Ok. cbn [fst]. simpl in Hlen. rewrite IH by lia.
  destruct (states evs h1) as [|s ss] eqn:Hss; [done|].
  rewrite last_cons_cons. destruct (last (s :: ss)) as [x|] eqn:Hl; [done|].
  by apply last_None in Hl.
Qed.

(** One regular key pressed and released while the modifier byte is [b]. *)
Lemma press_step key u b :
  regular key u →
  updateReport (Down key) (mkUsbHid [b; 0; 0; 0; 0; 0; 0; 0] 0)
  = Ok (mkUsbHid [b; 0; u; 0; 0; 0; 0; 0] 1, []).
Proof.
  intros Hreg.
  exact (updateReport_append key u 1 b 0 [] Hreg ltac:(simpl; lia)
           (not_elem_of_nil u)).
Qed.

Lemma release_step key u b :
  regular key u →
  updateReport (Up key) (mkUsbHid [b; 0; u; 0; 0; 0; 0; 0] 1)
  = Ok (mkUsbHid [b; 0; 0; 0; 0; 0; 0; 0] 0, []).
Proof.
  intros Hreg.
  exact (updateReport_release_last key u b 0 [] Hreg ltac:(simpl; lia)
           (not_elem_of_nil u)).
Qed.

Lemma modifier_down_step m :
  ModifierTable m ≠ 0 →
  updateReport (Down m) zeroed
  = Ok (mkUsbHid [ModifierTable m; 0; 0; 0; 0; 0; 0; 0] 0, []).
Proof.
  intros Hm.
  change (Down m) with (KeyEvent m 1).
  change zeroed with (mkUsbHid (0 :: [0; 0; 0; 0; 0; 0; 0]) 0).
  rewrite updateReport_modifier by done.
  rewrite decide_True by done. by rewrite Z.lor_0_l.
Qed.

Lemma modifier_up_step m :
  ModifierTable m ≠ 0 →
  updateReport (Up m) (mkUsbHid [ModifierTable m; 0; 0; 0; 0; 0; 0; 0] 0)
  = Ok (zeroed, []).
Proof.
  intros Hm. change (Up m) with (KeyEvent m 0).
  rewrite updateReport_modifier by done.
  rewrite decide_False by (by intros []). by rewrite Z.ldiff_diag.
Qed.

Lemma plain_states key u :
  regular key u →
  states [Down key; Up key] zeroed
  = [mkUsbHid [0; 0; u; 0; 0; 0; 0; 0] 1; zeroed].
Proof.
  intros Hreg.
  rewrite (states_cons_Ok _ _ _ _ _ (press_step key u 0 Hreg)).
  by rewrite (states_cons_Ok _ _ _ _ _ (release_step key u 0 Hreg)).
Qed.

Lemma modified_states m key u :
  ModifierTable m ≠ 0 → regular key u →
  states [Down m; Down key; Up key; Up m] zeroed
  = [mkUsbHid [ModifierTable m; 0; 0; 0; 0; 0; 0; 0] 0;
     mkUsbHid [ModifierTable m; 0; u; 0; 0; 0; 0; 0] 1;
     mkUsbHid [ModifierTable m; 0; 0; 0; 0; 0; 0; 0] 0;
     zeroed].
Proof.
  intros Hm Hreg.
  rewrite (states_cons_Ok _ _ _ _ _ (modifier_down_step m Hm)).
  rewrite (states_cons_Ok _ _ _ _ _ (press_step key u _ Hreg)).
  rewrite (states_cons_Ok _ _ _ _ _ (release_step key u _ Hreg)).
  by rewrite (states_cons_Ok _ _ _ _ _ (modifier_up_step m Hm)).
Qed.

Lemma keystroke_states (ctrl : bool) k :
  ∃ key u, regular key u
    ∧ ((keystroke ctrl k = [Down key; Up key]
        ∧ states (keystroke ctrl k) zeroed
          = [mkUsbHid [0; 0; u; 0; 0; 0; 0; 0] 1; zeroed])
       ∨ (∃ m b,
            ((ctrl = true ∧ m = evdev.KeyLeftCtrl ∧ b = 1)
             ∨ (ctrl = false ∧ m = evdev.KeyLeftShift ∧ b = 2))
            ∧ keystroke ctrl k = [Down m; Down key; Up key; Up m]
            ∧ states (keystroke ctrl k) zeroed
              = [mkUsbHid [b; 0; 0; 0; 0; 0; 0; 0] 0;
                 mkUsbHid [b; 0; u; 0; 0; 0; 0; 0] 1;
                 mkUsbHid [b; 0; 0; 0; 0; 0; 0; 0] 0;
                 zeroed])).
Proof.
  assert (ModifierTable evdev.KeyLeftCtrl ≠ 0) as Hctrl by done.
  assert (ModifierTable evdev.KeyLeftShift ≠ 0) as Hshift by done.
  unfold keystroke. destruct ctrl.
  - destruct (tcellctrltoev_regular k) as [u Hu].
    eexists _, u. split; [exact Hu|]. right.
    exists evdev.KeyLeftCtrl, 1. split; [by left|]. split; [done|].
    cbv zeta. by rewrite (modified_states _ _ u Hctrl Hu).
  - destruct (tcellshiftokey !! k) as [key|] eqn:Hk.
    + destruct (tcellshiftokey_regular k key Hk) as [u Hu].
      exists key, u. split; [done|]. right.
      exists evdev.KeyLeftShift, 2. split; [by right|]. split; [done|].
      simpl app. by rewrite (modified_states _ _ u Hshift Hu).
    + case_decide.
      * destruct (tcelltoev_regular (k + (rune "a" - rune "A"))) as [u Hu].
        eexists _, u. split; [exact Hu|]. right.
        exists evdev.KeyLeftShift, 2. split; [by right|]. split; [done|].
        simpl app. by rewrite (modified_states _ _ u Hshift Hu).
      * destruct (tcelltoev_regular k) as [u Hu].
        eexists _, u. split; [exact Hu|]. left. split; [done|].
        simpl app. by rewrite (plain_states _ u Hu).
Qed.

Lemma keystroke_run (ctrl : bool) k : run (keystroke ctrl k) zeroed = Ok zeroed.
Proof.
  destruct (keystroke_states ctrl k)
    as (key & u & _ & [[Hks Hst]|(m & b & _ & Hks & Hst)]);
    rewrite run_states_last; rewrite Hst; try done; by rewrite Hks.
Qed.
End producer_runs.

(** X13: the reports of one key of the terminal.  Whatever the rune and the
    control flag, the events that [main] forwards are a press and a release
    of one regular key, alone or inside a pulse of left control (control
    held) or of left shift; from the zeroed state they give the reports with
    that one usage ID, with the modifier bit around it, and end in the zeroed
    state again. *)
Theorem keystroke_reports (ctrl : bool) (k : Z) :
  ∃ key u, regular key u
    ∧ ((keystroke ctrl k = [Down key; Up key]
        ∧ states (keystroke ctrl k) zeroed
          = [mkUsbHid [0; 0; u; 0; 0; 0; 0; 0] 1; zeroed])
       ∨ (∃ m b,
            ((ctrl = true ∧ m = evdev.KeyLeftCtrl ∧ b = 1)
             ∨ (ctrl = false ∧ m = evdev.KeyLeftShift ∧ b = 2))
            ∧ keystroke ctrl k = [Down m; Down key; Up key; Up m]
            ∧ states (keystroke ctrl k) zeroed
              = [mkUsbHid [b; 0; 0; 0; 0; 0; 0; 0] 0;
                 mkUsbHid [b; 0; u; 0; 0; 0; 0; 0] 1;
                 mkUsbHid [b; 0; 0; 0; 0; 0; 0; 0] 0;
                 zeroed])).
Proof. apply keystroke_states. Qed.

(** X14: the producer of [main] never leaves a key or a modifier held and
    never makes [updateReport] panic: after the events of any sequence of
    keys of the terminal, applied from the zeroed state, the state is the
    zeroed state again. *)
Theorem keystrokes_return_to_zero (ks : list (bool * Z)) :
  run (keystrokes ks) zeroed = Ok zeroed.
Proof.
  unfold keystrokes. induction ks as [|[ctrl k] ks IH]; [done|].
  rewrite bind_cons, run_app, keystroke_run. by rewrite bind_Ok.
Qed.

(** X15: an upper-case letter is typed as its lower-case letter inside a
    pulse of left shift, and every letter has a key: for a rune from A to Z
    without control, the base table has an entry for the lower-case rune, the
    lower-case rune alone yields the press and release of that key, and the
    upper-case rune yields the same two events between the press and the
    release of left shift. *)
Theorem upper_case_is_shifted (k : Z) :
  rune "A" ≤ k ≤ rune "Z" →
  let key := map_get 0%N tcelltoev (k + (rune "a" - rune "A")) in
  key ≠ 0%N
  ∧ keystroke false (k + (rune "a" - rune "A")) = [Down key; Up key]
  ∧ keystroke false k
    = [Down evdev.KeyLeftShift; Down key; Up key; Up evdev.KeyLeftShift].
Proof.
  intros Hk. cbv zeta.
  assert (Forall (λ k,
            map_get 0%N tcelltoev (k + (rune "a" - rune "A")) ≠ 0%N
            ∧ keystroke false (k + (rune "a" - rune "A"))
              = [Down (map_get 0%N tcelltoev (k + (rune "a" - rune "A")));
                 Up (map_get 0%N tcelltoev (k + (rune "a" - rune "A")))]
            ∧ keystroke false k
              = [Down evdev.KeyLeftShift;
                 Down (map_get 0%N tcelltoev (k + (rune "a" - rune "A")));
                 Up (map_get 0%N tcelltoev (k + (rune "a" - rune "A")));
                 Up evdev.KeyLeftShift])
            (seqZ (rune "A") 26)) as Hall.
  { apply (bool_decide_unpack _). vm_compute. exact I. }
  apply (proj1 (Forall_forall _ _) Hall). apply elem_of_seqZ.
  change (rune "A") with 65 in *. change (rune "Z") with 90 in *. lia.
Qed.

Lemma upper_case_is_shifted_witness :
  rune "A" ≤ rune "Q" ≤ rune "Z"
  ∧ keystroke false (rune "Q")
    = [Down evdev.KeyLeftShift; Down evdev.KeyQ; Up evdev.KeyQ;
       Up evdev.KeyLeftShift].
Proof.
  assert (rune "A" ≤ rune "Q" ≤ rune "Z") as H1 by (vm_compute; split; congruence).
  split; [exact H1|].
  exact (proj2 (proj2 (upper_case_is_shifted (rune "Q") H1))).
Defined.

(** * Properties of the drawing functions *)

Section screen.
Implicit Types (t : list SetContent) (c : SetContent) (x y g : Z).

Lemma shown_app t1 t2 x y :
  shown (t1 ++ t2) x y
  = match shown t2 x y with Some g => Some g | None => shown t1 x y end.
Proof.
  unfold shown. rewrite filter_app, last_app.
  by destruct (last (filter _ t2)).
Qed.

Lemma shown_nil x y : shown [] x y = None.
Proof. reflexivity. Qed.

Lemma shown_uniform t g x y :
  (∀ c, c ∈ t → mainc c = g) →
  (∃ c, c ∈ t ∧ cx c = x ∧ cy c = y) →
  shown t x y = Some g.
Proof.
  intros Hg (c & Hc & Hx & Hy). unfold shown.
  destruct (last (filter _ t)) as [c'|] eqn:Hl; simpl.
  - apply last_Some_elem_of, list_elem_of_filter in Hl as [_ Hin].
    by rewrite (Hg c' Hin).
  - apply last_None in Hl.
    assert (c ∈ filter (λ c, cx c = x ∧ cy c = y) t) as Hin
      by (by apply list_elem_of_filter).
    rewrite Hl in Hin. by apply elem_of_nil in Hin.
Qed.

Lemma shown_none t x y :
  (∀ c, c ∈ t → ¬ (cx c = x ∧ cy c = y)) → shown t x y = None.
Proof.
  intros Hno. unfold shown.
  destruct (last (filter _ t)) as [c'|] eqn:Hl; [|done].
  apply last_Some_elem_of, list_elem_of_filter in Hl as [Hc Hin].
  by destruct (Hno c' Hin).
Qed.

Lemma elem_of_hlines c x1 y1 x2 y2 style :
  c ∈ hlines x1 y1 x2 y2 style
  ↔ ∃ col, x1 ≤ col ≤ x2
           ∧ (c = mkSetContent col y1 RuneHLine [] style
              ∨ c = mkSetContent col y2 RuneHLine [] style).
Proof.
  unfold hlines. rewrite list_elem_of_bind. split.
  - intros (col & Hc & Hcol). apply elem_of_seqZ in Hcol. exists col.
    split; [lia|]. rewrite !elem_of_cons in Hc.
    destruct Hc as [?|[?|Hc]]; [by left|by right|by apply elem_of_nil in Hc].
  - intros (col & Hcol & Hc). exists col. split.
    + rewrite !elem_of_cons. tauto.
    + apply elem_of_seqZ. lia.
Qed.

Lemma elem_of_vlines c x1 y1 x2 y2 style :
  c ∈ vlines x1 y1 x2 y2 style
  ↔ ∃ row, y1 < row < y2
           ∧ (c = mkSetContent x1 row RuneVLine [] style
              ∨ c = mkSetContent x2 row RuneVLine [] style).
Proof.
  unfold vlines. rewrite list_elem_of_bind. split.
  - intros (row & Hc & Hrow). apply elem_of_seqZ in Hrow. exists row.
    split; [lia|]. rewrite !elem_of_cons in Hc.
    destruct Hc as [?|[?|Hc]]; [by left|by right|by apply elem_of_nil in Hc].
  - intros (row & Hrow & Hc). exists row. split.
    + rewrite !elem_of_cons. tauto.
    + apply elem_of_seqZ. lia.
Qed.

Lemma elem_of_fill c x1 y1 x2 y2 style r :
  c ∈ fill x1 y1 x2 y2 style r
  ↔ ∃ col row, x1 < col < x2 ∧ y1 < row < y2
               ∧ c = mkSetContent col row r [] style.
Proof.
  unfold fill. rewrite list_elem_of_bind. split.
  - intros (row & Hc & Hrow). apply elem_of_seqZ in Hrow.
    apply list_elem_of_bind in Hc as (col & Hc & Hcol).
    apply elem_of_seqZ in Hcol. apply list_elem_of_singleton in Hc.
    exists col, row. split; [lia|]. split; [lia|done].
  - intros (col & row & Hcol & Hrow & ->). exists row. split.
    + apply list_elem_of_bind. exists col. split.
      * by apply list_elem_of_singleton.
      * apply elem_of_seqZ. lia.
    + apply elem_of_seqZ. lia.
Qed.

Lemma elem_of_corners c x1 y1 x2 y2 style :
  c ∈ corners x1 y1 x2 y2 style
  ↔ c = mkSetContent x1 y1 RuneULCorner [] style
    ∨ c = mkSetContent x2 y1 RuneURCorner [] style
    ∨ c = mkSetContent x1 y2 RuneLLCorner [] style
    ∨ c = mkSetContent x2 y2 RuneLRCorner [] style.
Proof.
  unfold corners. rewrite !elem_of_cons. split; [|tauto].
  intros [?|[?|[?|[?|H]]]]; [tauto..|by apply elem_of_nil in H].
Qed.

Lemma shown_hlines x1 y1 x2 y2 style x y :
  shown (hlines x1 y1 x2 y2 style) x y
  = if decide (x1 ≤ x ≤ x2 ∧ (y = y1 ∨ y = y2)) then Some RuneHLine
    else None.
Proof.
  case_decide as H.
  - apply shown_uniform.
    + by intros c (col & _ & [->| ->])%elem_of_hlines.
    + destruct H as [Hx [->| ->]].
      * exists (mkSetContent x y1 RuneHLine [] style).
        split; [|done]. apply elem_of_hlines. exists x. split; [done|by left].
      * exists (mkSetContent x y2 RuneHLine [] style).
        split; [|done]. apply elem_of_hlines. exists x. split; [done|by right].
  - apply shown_none. intros c (col & Hcol & [->| ->])%elem_of_hlines;
      simpl; intros [<- <-]; apply H; split; tauto || lia.
Qed.

Lemma shown_vlines x1 y1 x2 y2 style x y :
  shown (vlines x1 y1 x2 y2 style) x y
  = if decide ((x = x1 ∨ x = x2) ∧ y1 < y < y2) then Some RuneVLine
    else None.
Proof.
  case_decide as H.
  - apply shown_uniform.
    + by intros c (row & _ & [->| ->])%elem_of_vlines.
    + destruct H as [[->| ->] Hy].
      * exists (mkSetContent x1 y RuneVLine [] style).
        split; [|done]. apply elem_of_vlines. exists y. split; [done|by left].
      * exists (mkSetContent x2 y RuneVLine [] style).
        split; [|done]. apply elem_of_vlines. exists y. split; [done|by right].
  - apply shown_none. intros c (row & Hrow & [->| ->])%elem_of_vlines;
      simpl; intros [<- <-]; apply H; split; tauto || lia.
Qed.

Lemma shown_fill x1 y1 x2 y2 style r x y :
  shown (fill x1 y1 x2 y2 style r) x y
  = if decide (x1 < x < x2 ∧ y1 < y < y2) then Some r else None.
Proof.
  case_decide as H.
  - apply shown_uniform.
    + by intros c (col & row & _ & _ & ->)%elem_of_fill.
    + exists (mkSetContent x y r [] style). split; [|done].
      apply elem_of_fill. exists x, y. split; [tauto|]. split; [tauto|done].
  - apply shown_none. intros c (col & row & Hcol & Hrow & ->)%elem_of_fill.
    simpl. intros [<- <-]. by apply H.
Qed.

Lemma shown_corners x1 y1 x2 y2 style x y :
  x1 ≠ x2 → y1 ≠ y2 →
  shown (corners x1 y1 x2 y2 style) x y
  = if decide (x = x1 ∧ y = y1) then Some RuneULCorner
    else if decide (x = x2 ∧ y = y1) then Some RuneURCorner
    else if decide (x = x1 ∧ y = y2) then Some RuneLLCorner
    else if decide (x = x2 ∧ y = y2) then Some RuneLRCorner
    else None.
Proof.
  intros Hx Hy. unfold shown, corners.
  rewrite !filter_cons, filter_nil. simpl.
  repeat case_decide; simpl; try done; exfalso; lia.
Qed.
End screen.

Section boxes.
Implicit Types (c : SetContent) (x y style r : Z).

Lemma drawBox_ordered (x1 y1 x2 y2 : Z) style r :
  x1 ≤ x2 → y1 ≤ y2 →
  drawBox x1 y1 x2 y2 style r
  = hlines x1 y1 x2 y2 style
    ++ vlines x1 y1 x2 y2 style
    ++ (if decide (y1 ≠ y2 ∧ x1 ≠ x2) then corners x1 y1 x2 y2 style else [])
    ++ fill x1 y1 x2 y2 style r.
Proof.
  intros Hx Hy. unfold drawBox. by rewrite !decide_False by lia.
Qed.

Lemma drawBox_normal (x1 y1 x2 y2 : Z) style r :
  drawBox x1 y1 x2 y2 style r
  = drawBox (Z.min x1 x2) (Z.min y1 y2) (Z.max x1 x2) (Z.max y1 y2) style r.
Proof.
  rewrite (drawBox_ordered (Z.min x1 x2) (Z.min y1 y2)) by lia.
  unfold drawBox.
  destruct (decide (y2 < y1));
    [rewrite (Z.min_r y1 y2), (Z.max_l y1 y2) by lia
    |rewrite (Z.min_l y1 y2), (Z.max_r y1 y2) by lia];
    (destruct (decide (x2 < x1));
     [rewrite (Z.min_r x1 x2), (Z.max_l x1 x2) by lia
     |rewrite (Z.min_l x1 x2), (Z.max_r x1 x2) by lia]);
    done.
Qed.

Lemma shown_ordered (x1 y1 x2 y2 : Z) style r x y :
  x1 ≤ x2 → y1 ≤ y2 →
  shown (drawBox x1 y1 x2 y2 style r) x y = box_glyph x1 y1 x2 y2 r x y.
Proof.
  intros Hx Hy. rewrite drawBox_ordered by done. rewrite !shown_app.
  rewrite shown_fill, shown_vlines, shown_hlines. unfold box_glyph.
  destruct (decide (x1 < x < x2 ∧ y1 < y < y2)) as [Hin|Hin]; [done|].
  destruct (decide (y1 ≠ y2 ∧ x1 ≠ x2)) as [[Hy' Hx']|Hdeg].
  - rewrite shown_corners by done.
    repeat case_decide; try done; exfalso; tauto || lia.
  - rewrite shown_nil.
    repeat case_decide; try done; exfalso; tauto || lia.
Qed.
End boxes.

(** X16: what [drawBox] leaves on the screen is the picture of the box.  For
    corners given in any order, the last call on each cell sets: the rune [r]
    strictly inside; the four corner runes at the corners, unless the box
    is a single row or column; the vertical line on the rest of the left and
    right columns, the horizontal line on the rest of the top and bottom
    rows; and no call at all touches a cell outside. *)
Theorem drawBox_picture (x1 y1 x2 y2 style r x y : Z) :
  Forall coord [x1; y1; x2; y2] →
  shown (drawBox x1 y1 x2 y2 style r) x y
  = box_glyph (Z.min x1 x2) (Z.min y1 y2) (Z.max x1 x2) (Z.max y1 y2) r x y.
Proof.
  intros _. rewrite drawBox_normal. apply shown_ordered; lia.
Qed.

Lemma drawBox_picture_witness :
  Forall coord [5; 1; 1; 3]
  ∧ shown (drawBox 5 1 1 3 0 (rune "*")) 1 3
    = box_glyph (Z.min 5 1) (Z.min 1 3) (Z.max 5 1) (Z.max 1 3)
        (rune "*") 1 3.
Proof.
  assert (Forall coord [5; 1; 1; 3]) as H1
    by (repeat constructor; by vm_compute).
  split; [exact H1|]. exact (drawBox_picture 5 1 1 3 0 (rune "*") 1 3 H1).
Defined.

(** X17: the two corners of a box may be given in any order: the calls of
    [drawBox] are the same for the four ways to name two opposite
    corners. *)
Theorem drawBox_corner_order (x1 y1 x2 y2 style r : Z) :
  Forall coord [x1; y1; x2; y2] →
  drawBox x2 y2 x1 y1 style r = drawBox x1 y1 x2 y2 style r
  ∧ drawBox x1 y2 x2 y1 style r = drawBox x1 y1 x2 y2 style r
  ∧ drawBox x2 y1 x1 y2 style r = drawBox x1 y1 x2 y2 style r.
Proof.
  intros _. rewrite (drawBox_normal x2 y2 x1 y1), (drawBox_normal x1 y2 x2 y1),
    (drawBox_normal x2 y1 x1 y2), (drawBox_normal x1 y1 x2 y2).
  by rewrite (Z.min_comm x2 x1), (Z.min_comm y2 y1), (Z.max_comm x2 x1),
    (Z.max_comm y2 y1).
Qed.

Lemma drawBox_corner_order_witness :
  Forall coord [1; 1; 4; 3]
  ∧ drawBox 4 3 1 1 0 (rune "*") = drawBox 1 1 4 3 0 (rune "*").
Proof.
  assert (Forall coord [1; 1; 4; 3]) as H1
    by (repeat constructor; by vm_compute).
  split; [exact H1|].
  exact (proj1 (drawBox_corner_order 1 1 4 3 0 (rune "*") H1)).
Defined.

(** X18: [drawBox] draws inside the box only, with the style it was given
    and without combining runes: every call addresses a cell between the two
    corners. *)
Theorem drawBox_stays_inside (x1 y1 x2 y2 style r : Z) (c : SetContent) :
  Forall coord [x1; y1; x2; y2] →
  c ∈ drawBox x1 y1 x2 y2 style r →
  Z.min x1 x2 ≤ cx c ≤ Z.max x1 x2
  ∧ Z.min y1 y2 ≤ cy c ≤ Z.max y1 y2
  ∧ combc c = [] ∧ cstyle c = style.
Proof.
  intros _. rewrite drawBox_normal.
  rewrite drawBox_ordered by lia. rewrite !elem_of_app.
  intros [Hc|[Hc|[Hc|Hc]]].
  - apply elem_of_hlines in Hc as (col & Hcol & [->| ->]); simpl;
      repeat split; lia.
  - apply elem_of_vlines in Hc as (row & Hrow & [->| ->]); simpl;
      repeat split; lia.
  - case_decide; [|by apply elem_of_nil in Hc].
    apply elem_of_corners in Hc as [->|[->|[->| ->]]]; simpl;
      repeat split; lia.
  - apply elem_of_fill in Hc as (col & row & Hcol & Hrow & ->); simpl.
    repeat split; lia.
Qed.

Lemma drawBox_stays_inside_witness :
  Forall coord [1; 1; 4; 3]
  ∧ (mkSetContent 2 2 (rune "*") [] 0 ∈ drawBox 1 1 4 3 0 (rune "*"))
  ∧ Z.min 1 4 ≤ 2 ≤ Z.max 1 4.
Proof.
  assert (Forall coord [1; 1; 4; 3]) as H1
    by (repeat constructor; by vm_compute).
  assert (mkSetContent 2 2 (rune "*") [] 0 ∈ drawBox 1 1 4 3 0 (rune "*"))
    as H2 by (apply (bool_decide_unpack _); vm_compute; exact I).
  split; [exact H1|]. split; [exact H2|].
  exact (proj1 (drawBox_stays_inside 1 1 4 3 0 (rune "*") _ H1 H2)).
Defined.

(** X19: [emitStr] loses no rune and keeps to its row: read back from the
    calls, the runes are the string; every call is on row [y] with the given
    style; a rune of width 0 is drawn as a combining rune on a space, every
    other rune as itself without combining runes; the first call is at
    column [x]. *)
Theorem emitStr_round_trip (RuneWidth : Z → Z) (x y style : Z)
    (str : list Z) :
  emitted <$> emitStr RuneWidth x y style str = str
  ∧ Forall (λ c,
      cy c = y ∧ cstyle c = style
      ∧ ((RuneWidth (emitted c) = 0
          ∧ mainc c = rune " " ∧ combc c = [emitted c])
         ∨ (RuneWidth (emitted c) ≠ 0 ∧ combc c = [])))
      (emitStr RuneWidth x y style str)
  ∧ cx <$> head (emitStr RuneWidth x y style str) = (λ _, x) <$> head str.
Proof.
  split; [|split].
  - revert x. induction str as [|c str IH]; intros x; [done|].
    simpl. case_decide; simpl; by rewrite IH.
  - revert x. induction str as [|c str IH]; intros x; [done|].
    simpl. case_decide; (constructor; [|by apply IH]); cbn;
      (split; [done|]); (split; [done|]); [left|right]; done.
  - destruct str as [|c str]; [done|]. simpl. by case_decide.
Qed.

(** * Leaving the program *)

Section escape.
Implicit Types (e : ui_event) (evs : list ui_event).

(** An escape key, with only neutral events before it. *)
Local Abbreviation armed evs :=
  (∃ b c, evs = b ++ UiKey tcell.KeyEsc :: c ∧ Forall neutral b).

Lemma two_escapes_cons e evs :
  two_escapes (e :: evs)
  ↔ (e = UiKey tcell.KeyEsc ∧ armed evs) ∨ two_escapes evs.
Proof.
  unfold two_escapes. split.
  - intros ([|e' a] & b & c & Heq & Hb); simpl in Heq.
    + injection Heq as -> ->. left. eauto.
    + injection Heq as -> ->. right. eauto.
  - intros [[-> (b & c & -> & Hb)]|(a & b & c & -> & Hb)].
    + by exists [], b, c.
    + by exists (e :: a), b, c.
Qed.

Lemma armed_cons e evs :
  armed (e :: evs) ↔ e = UiKey tcell.KeyEsc ∨ (neutral e ∧ armed evs).
Proof.
  split.
  - intros ([|e' b] & c & Heq & Hb); simpl in Heq.
    + injection Heq as -> ->. by left.
    + injection Heq as -> ->. apply Forall_cons in Hb as [He Hb].
      right. eauto.
  - intros [->|[He (b & c & -> & Hb)]].
    + by exists [], evs.
    + exists (e :: b), c. split; [done|]. by constructor.
Qed.

Lemma esc_loop_spec evs :
  (esc_loop evs 0 = None ↔ two_escapes evs)
  ∧ (esc_loop evs 1 = None ↔ armed evs ∨ two_escapes evs).
Proof.
  induction evs as [|e evs [IH0 IH1]].
  - split; (split; [done|]).
    + by intros ([|??] & ? & ? & ? & _).
    + intros [([|??] & ? & ? & _)|([|??] & ? & ? & ? & _)]; done.
  - rewrite two_escapes_cons, armed_cons. destruct e as [key|]; simpl.
    + destruct (decide (key = tcell.KeyEsc)) as [->|Hesc]; simpl.
      * change (0 + 1) with 1. rewrite IH1.
        split; [split; (intros [Ha|Ht]; [left|by right]);
                [by split|by destruct Ha]|].
        split; [intros _; by left; left|done].
      * assert (UiKey key ≠ UiKey tcell.KeyEsc) by congruence.
        destruct (decide (key = KeyCtrlL)) as [->|Hctrl]; simpl.
        -- assert (neutral (UiKey KeyCtrlL)) by (by right).
           rewrite IH0, IH1. tauto.
        -- assert (¬ neutral (UiKey key))
             by (intros [?|?]; congruence).
           rewrite IH0. tauto.
    + assert (neutral UiOther) by (by left).
      assert (UiOther ≠ UiKey tcell.KeyEsc) by done.
      rewrite IH0, IH1. tauto.
Qed.
End escape.

(** X20: press ESC twice to exit.  Started with the counter at 0, the loop
    of [main] (as long as the rest of its body returns) leaves the program
    exactly when the events hold two escape keys with nothing between them
    but events that are no keys and Ctrl-L keys; any other key between the
    two starts the count again. *)
Theorem exit_on_second_escape (evs : list ui_event) :
  esc_loop evs 0 = None ↔ two_escapes evs.
Proof. apply esc_loop_spec. Qed.
